(** * gpbackup, package [restore]: parallel statement execution and
      postdata batching ([restore/parallel.go])

    A shallow embedding of [BatchPostdataStatements],
    [executeStatementsForConn], [writeStatements], [ExecuteStatements] and
    [WriteStatements], together with the properties of the engine that the
    specification states about them. *)

From Stdlib Require Import ZArith String Ascii List Permutation Lia.
From stdpp Require Import gmap strings list fin_maps.
Import ListNotations.

Local Open Scope string_scope.
Local Open Scope list_scope.
Local Open Scope Z_scope.

(** ** Data model *)

(** [toc.StatementWithType], restricted to the fields the package reads. *)
Record StatementWithType : Type := mkStatementWithType {
  Schema : string;
  Name : string;
  ObjectType : string;
  ReferenceObject : string;
  Statement : string
}.

(** [toc.StatementWithOffset]: the statement text and the position of the
    output file at which it is written ([Offset] is an [int64]). *)
Record StatementWithOffset : Type := mkStatementWithOffset {
  OSchema : string;
  OName : string;
  OStatement : string;
  Offset : Z
}.

(** A Go [error] value; [option error] is an [error] that may be [nil]. *)
Definition error : Type := string.

(** ** Go's [strings] package *)

(** [strings.HasPrefix s prefix]. *)
Fixpoint HasPrefix (s prefix : string) {struct prefix} : bool :=
  match prefix, s with
  | EmptyString, _ => true
  | String c prefix', String d s' => Ascii.eqb c d && HasPrefix s' prefix'
  | String _ _, EmptyString => false
  end.

(** [strings.Contains s substr]: does [substr] occur within [s]. *)
Fixpoint Contains (s substr : string) : bool :=
  HasPrefix s substr ||
  match s with
  | EmptyString => false
  | String _ s' => Contains s' substr
  end.

(** ** [BatchPostdataStatements] *)

Module Batch.

(** The local variables of the loop: [indexMap] and the three slices. *)
Record state : Type := mkState {
indexMap : gmap string bool;
firstBatch : list StatementWithType;
secondBatch : list StatementWithType;
thirdBatch : list StatementWithType
}.

Definition init : state := mkState ∅ [] [] [].

(** [_, present := indexMap[ref]]: is [ref] a key of the map. *)
Definition present (ref : string) (indexMap : gmap string bool) : bool :=
bool_decide (is_Some (indexMap !! ref)).

(** The value of [toFirstBatch] once the [if skipIndex] has run. *)
Definition toFirstBatch (skipIndex : bool) (indexMap : gmap string bool)
  (statement : StatementWithType) : bool :=
let tableIndexPresent := present (ReferenceObject statement) indexMap in
let toFirstBatch := String.eqb (ObjectType statement) "INDEX" in
if skipIndex
then toFirstBatch || String.eqb (ObjectType statement) "INDEX METADATA"
else toFirstBatch && negb tableIndexPresent.

(** One iteration of [for _, statement := range statements]. *)
Definition body (skipIndex : bool) (st : state) (statement : StatementWithType) : state :=
if toFirstBatch skipIndex (indexMap st) statement then
  mkState (<[ReferenceObject statement := true]> (indexMap st))
          (firstBatch st ++ [statement]) (secondBatch st) (thirdBatch st)
else if Contains (ObjectType statement) " METADATA" then
  mkState (indexMap st) (firstBatch st) (secondBatch st) (thirdBatch st ++ [statement])
else
  mkState (indexMap st) (firstBatch st) (secondBatch st ++ [statement]) (thirdBatch st).

Definition loop (skipIndex : bool) (st : state) (statements : list StatementWithType) : state :=
foldl (body skipIndex) st statements.

End Batch.

Definition BatchPostdataStatements (statements : list StatementWithType) (skipIndex : bool)
  : list StatementWithType * list StatementWithType * list StatementWithType :=
  let st := Batch.loop skipIndex Batch.init statements in
  (Batch.firstBatch st, Batch.secondBatch st, Batch.thirdBatch st).

(** [Interleave3 l1 l2 l3 l]: [l] is an interleaving of [l1], [l2] and
    [l3]: every position of [l] is assigned to exactly one of the three
    lists, and each of them lists its positions in the order of [l]. *)
Inductive Interleave3 {A : Type} : list A -> list A -> list A -> list A -> Prop :=
| Interleave3_nil : Interleave3 [] [] [] []
| Interleave3_1 x l1 l2 l3 l :
    Interleave3 l1 l2 l3 l -> Interleave3 (x :: l1) l2 l3 (x :: l)
| Interleave3_2 x l1 l2 l3 l :
    Interleave3 l1 l2 l3 l -> Interleave3 l1 (x :: l2) l3 (x :: l)
| Interleave3_3 x l1 l2 l3 l :
    Interleave3 l1 l2 l3 l -> Interleave3 l1 l2 (x :: l3) (x :: l).

(** The predicates on records that the properties of the batching speak about. *)
Definition isIndex (statement : StatementWithType) : bool :=
  String.eqb (ObjectType statement) "INDEX".

Definition isIndexOn (ref : string) (statement : StatementWithType) : bool :=
  isIndex statement && String.eqb (ReferenceObject statement) ref.

Definition isIndexOrIndexMetadata (statement : StatementWithType) : bool :=
  isIndex statement || String.eqb (ObjectType statement) "INDEX METADATA".

Definition isMetadata (statement : StatementWithType) : bool :=
  Contains (ObjectType statement) " METADATA".

(** ** Shared definitions of the two engines *)

(** [int32] arithmetic: the result of an addition wraps around. *)
Definition wrap32 (z : Z) : Z := (z + 2 ^ 31) mod 2 ^ 32 - 2 ^ 31.

(** How a call of [ExecuteStatements] or [WriteStatements] ends: it returns
    [numErrors], or [gplog.Fatal] ends the process with the error. *)
Inductive outcome : Type :=
| Return (numErrors : Z)
| Fatal (err : error).

(** ** The worker loop and the pool

    [executeStatementsForConn] and [writeStatements] are the same loop
    around a different unit of work ([connectionPool.Exec] on the worker's
    connection, [outputFile.WriteAt] on the shared file).  The loop is
    embedded once, as a transition system over the state its workers share:
    a worker is at one of the control points of the loop, and a step of the
    pool is a step of one worker, or the signal handler setting
    [wasTerminated].  Serial mode is the pool of one worker. *)
Module Pool.
Section Pool.
Context {Task Sys Arg : Type}.

(** The unit of work, on the state [Sys] it acts on (the database, the
    output file), with the worker's own argument (its connection number,
    the file handle). *)
Variable work : Sys -> Task -> Arg -> Sys * option error.
(** [statement.Schema + "." + statement.Name]. *)
Variable key : Task -> string.
(** [MustGetFlagBool(options.ON_ERROR_CONTINUE)]. *)
Variable onErrorContinue : bool.
Variable executeInParallel : bool.

(** Where a worker is in its loop. *)
Inductive pc : Type :=
| AtRange                                  (* for statement := range statements *)
| AtCheck (statement : Task)               (* if wasTerminated || *fatalErr != nil *)
| AtWork (statement : Task)                (* _, err := Exec(...) / WriteAt(...) *)
| AtError (statement : Task) (err : error) (* if err != nil: the flag is consulted *)
| AtInsert (statement : Task)              (* errorTablesMetadata[...] = Empty{} *)
| AtIncrement                              (* progressBar.Increment() *)
| Returned.                                (* the function has returned *)

(** What a worker did, for the history of the run. *)
Inductive event : Type :=
| Checked (statement : Task) (stop : bool) (* the value of the loop's first condition *)
| Attempted (statement : Task) (err : option error)
| Counted (statement : Task)
| Inserted (k : string)
| Latched (err : error)
| Incremented.

Record state : Type := mkState {
  tasks : list Task;                       (* the closed, buffered channel *)
  sys : Sys;
  wasTerminated : bool;                    (* package variable *)
  fatalErr : option error;
  numErrors : Z;                           (* int32 *)
  errorTablesMetadata : gset string;       (* package variable, map[string]Empty *)
  progressBar : nat;                       (* number of calls of Increment *)
  workers : list (Arg * pc);
  history : list (nat * event)             (* worker and event, oldest first *)
}.

Definition goto (w : nat) (arg : Arg) (p : pc) (σ : state) : state :=
  mkState (tasks σ) (sys σ) (wasTerminated σ) (fatalErr σ) (numErrors σ)
          (errorTablesMetadata σ) (progressBar σ) (<[w := (arg, p)]> (workers σ))
          (history σ).

Definition record (w : nat) (e : event) (σ : state) : state :=
  mkState (tasks σ) (sys σ) (wasTerminated σ) (fatalErr σ) (numErrors σ)
          (errorTablesMetadata σ) (progressBar σ) (workers σ)
          (history σ ++ [(w, e)]).

Definition receive (σ : state) : state :=
  mkState (tail (tasks σ)) (sys σ) (wasTerminated σ) (fatalErr σ) (numErrors σ)
          (errorTablesMetadata σ) (progressBar σ) (workers σ) (history σ).

Definition set_sys (x : Sys) (σ : state) : state :=
  mkState (tasks σ) x (wasTerminated σ) (fatalErr σ) (numErrors σ)
          (errorTablesMetadata σ) (progressBar σ) (workers σ) (history σ).

Definition set_wasTerminated (σ : state) : state :=
  mkState (tasks σ) (sys σ) true (fatalErr σ) (numErrors σ)
          (errorTablesMetadata σ) (progressBar σ) (workers σ) (history σ).

Definition set_fatalErr (err : error) (σ : state) : state :=
  mkState (tasks σ) (sys σ) (wasTerminated σ) (Some err) (numErrors σ)
          (errorTablesMetadata σ) (progressBar σ) (workers σ) (history σ).

Definition set_numErrors (n : Z) (σ : state) : state :=
  mkState (tasks σ) (sys σ) (wasTerminated σ) (fatalErr σ) n
          (errorTablesMetadata σ) (progressBar σ) (workers σ) (history σ).

Definition insert_errorTablesMetadata (k : string) (σ : state) : state :=
  mkState (tasks σ) (sys σ) (wasTerminated σ) (fatalErr σ) (numErrors σ)
          ({[k]} ∪ errorTablesMetadata σ) (progressBar σ) (workers σ) (history σ).

Definition Increment (σ : state) : state :=
  mkState (tasks σ) (sys σ) (wasTerminated σ) (fatalErr σ) (numErrors σ)
          (errorTablesMetadata σ) (S (progressBar σ)) (workers σ) (history σ).

(** [atomic.AddInt32(numErrors, 1)] in parallel mode and
    [*numErrors = *numErrors + 1] in serial mode. *)
Definition atomic_AddInt32 (n delta : Z) : Z := wrap32 (n + delta).

(** The condition [wasTerminated || *fatalErr != nil]. *)
Definition mustStop (σ : state) : bool :=
  wasTerminated σ || bool_decide (is_Some (fatalErr σ)).

(** One step of worker [w], bound to [arg] and standing at [p]. *)
Definition worker_step (w : nat) (arg : Arg) (p : pc) (σ : state) : state :=
  match p with
  | AtRange =>
      match tasks σ with
      | [] => goto w arg Returned σ
      | statement :: _ => goto w arg (AtCheck statement) (receive σ)
      end
  | AtCheck statement =>
      if mustStop σ
      then goto w arg Returned (record w (Checked statement true) σ)
      else goto w arg (AtWork statement) (record w (Checked statement false) σ)
  | AtWork statement =>
      let '(sys', err) := work (sys σ) statement arg in
      let σ' := record w (Attempted statement err) (set_sys sys' σ) in
      match err with
      | Some e => goto w arg (AtError statement e) σ'
      | None => goto w arg AtIncrement σ'
      end
  | AtError statement err =>
      if onErrorContinue then
        let n := if executeInParallel
                 then atomic_AddInt32 (numErrors σ) 1
                 else wrap32 (numErrors σ + 1) in
        goto w arg (AtInsert statement) (record w (Counted statement) (set_numErrors n σ))
      else
        goto w arg AtIncrement (record w (Latched err) (set_fatalErr err σ))
  | AtInsert statement =>
      goto w arg AtIncrement
           (record w (Inserted (key statement)) (insert_errorTablesMetadata (key statement) σ))
  | AtIncrement =>
      goto w arg AtRange (record w Incremented (Increment σ))
  | Returned => σ
  end.

(** What the scheduler and the environment choose between. *)
Inductive action : Type :=
| Signal            (* the signal handler runs: wasTerminated = true *)
| Step (w : nat).   (* worker w takes its next step *)

Definition step (σ : state) (a : action) : state :=
  match a with
  | Signal => set_wasTerminated σ
  | Step w =>
      match workers σ !! w with
      | Some (arg, p) => worker_step w arg p σ
      | None => σ
      end
  end.

Definition run (schedule : list action) (σ : state) : state :=
  foldl step σ schedule.

Definition isReturned (wk : Arg * pc) : bool :=
  match wk.2 with Returned => true | _ => false end.

(** [workerPool.Wait()] is over (in serial mode: the one call is). *)
Definition finished (σ : state) : bool := forallb isReturned (workers σ).

(** The tail of [ExecuteStatements] and [WriteStatements], once every
    worker has returned. *)
Definition result (σ : state) : outcome :=
  match fatalErr σ with
  | Some err => Fatal err
  | None => Return (numErrors σ)
  end.

(** A complete run: the outcome, if the schedule lets every worker reach
    its [return]. *)
Definition outcome_of (σ : state) : option outcome :=
  if finished σ then Some (result σ) else None.

(** The state in which the pool starts. *)
Definition start (statements : list Task) (s : Sys) (terminated : bool)
    (numErrors0 : Z) (tables : gset string) (bar : nat) (args : list Arg) : state :=
  mkState statements s terminated None numErrors0 tables bar
          ((fun arg => (arg, AtRange)) <$> args) [].

(** *** Reading the history *)

Definition attempt_of (x : nat * event) : option (Task * option error) :=
  match x.2 with Attempted statement err => Some (statement, err) | _ => None end.

Definition dropped_of (x : nat * event) : option Task :=
  match x.2 with Checked statement true => Some statement | _ => None end.

Definition isCounted (x : nat * event) : bool :=
  match x.2 with Counted _ => true | _ => false end.

Definition isLatched (x : nat * event) : bool :=
  match x.2 with Latched _ => true | _ => false end.

Definition isIncremented (x : nat * event) : bool :=
  match x.2 with Incremented => true | _ => false end.

Definition isFailure (x : Task * option error) : bool :=
  match x.2 with Some _ => true | None => false end.

(** The units of work that were carried out, with their results, in the
    order in which they were. *)
Definition attempts (h : list (nat * event)) : list (Task * option error) :=
  omap attempt_of h.

(** The statements that were attempted, and those a worker received and
    put aside because it had to stop. *)
Definition attempted (h : list (nat * event)) : list Task := (attempts h).*1.
Definition dropped (h : list (nat * event)) : list Task := omap dropped_of h.

Definition failures (h : list (nat * event)) : nat :=
  length (List.filter isFailure (attempts h)).
Definition counted (h : list (nat * event)) : nat := length (List.filter isCounted h).
Definition latched (h : list (nat * event)) : nat := length (List.filter isLatched h).
Definition increments (h : list (nat * event)) : nat :=
  length (List.filter isIncremented h).

(** The events of one worker. *)
Definition events_of (w : nat) (h : list (nat * event)) : list event :=
  omap (fun x : nat * event => if Nat.eqb x.1 w then Some x.2 else None) h.

(** The statement a worker holds that it has neither attempted nor put
    aside yet. *)
Definition inflight (wk : Arg * pc) : list Task :=
  match wk.2 with
  | AtCheck statement | AtWork statement => [statement]
  | _ => []
  end.

(** A worker between its unit of work and the [Increment] that follows. *)
Definition pending (wk : Arg * pc) : nat :=
  match wk.2 with
  | AtError _ _ | AtInsert _ | AtIncrement => 1
  | _ => 0
  end.

(** A worker whose unit of work failed and that has not yet counted or
    latched the error. *)
Definition unhandled (wk : Arg * pc) : nat :=
  match wk.2 with AtError _ _ => 1 | _ => 0 end.

(** The results of carrying out [statements] one after the other with
    the same argument, and the state they leave. *)
Fixpoint replay (arg : Arg) (s : Sys) (statements : list Task)
  : list (Task * option error) * Sys :=
  match statements with
  | [] => ([], s)
  | statement :: rest =>
      let '(s', err) := work s statement arg in
      let '(results, s'') := replay arg s' rest in
      ((statement, err) :: results, s'')
  end.

(** *** What the specification says of a history *)






Definition is_attempt (e : event) : bool :=
  match e with Attempted _ _ => true | _ => false end.

Definition is_increment (e : event) : bool :=
  match e with Incremented => true | _ => false end.

(** The attempts that the specification lets [Increment] follow: those that
    succeeded and those whose failure was counted. *)
Definition recovered_or_successful (h : list (nat * event)) : nat :=
  (length (attempts h) - failures h + counted h)%nat.

(** *** Invariants of the pool *)

Implicit Types σ : state.



(** The events a worker can add to the history from each control point. *)
Definition emits (p : pc) (e : event) : Prop :=
  match p, e with
  | AtCheck statement, Checked statement' _ => statement' = statement
  | AtWork statement, Attempted statement' _ => statement' = statement
  | AtError statement _, Counted statement' =>
      statement' = statement /\ onErrorContinue = true
  | AtError _ err, Latched err' => err' = err /\ onErrorContinue = false
  | AtInsert statement, Inserted k => k = key statement
  | AtIncrement, Incremented => True
  | _, _ => False
  end.



Definition count_inv (bar : nat) (numErrors0 : Z) σ : Prop :=
  let h := history σ in
  progressBar σ = (bar + increments h)%nat /\
  length (attempts h) = (increments h + sum_list_with pending (workers σ))%nat /\
  numErrors σ = wrap32 (numErrors0 + Z.of_nat (counted h)) /\
  failures h = (counted h + latched h + sum_list_with unhandled (workers σ))%nat /\
  (onErrorContinue = true -> latched h = 0%nat) /\
  (onErrorContinue = false -> counted h = 0%nat) /\
  (latched h = 0%nat -> fatalErr σ = None) /\
  (latched h <> 0%nat -> is_Some (fatalErr σ)).

Definition holding (l : list (Arg * pc)) : list Task := flat_map inflight l.

(** Every statement is in the channel, in the hands of a worker, put
    aside by a worker that had to stop, or attempted: none is lost and
    none is attempted twice. *)
Definition conserved (statements : list Task) σ : Prop :=
  attempted (history σ) ++ dropped (history σ) ++ holding (workers σ) ++ tasks σ
  ≡ₚ statements.

(** No flag is set, no statement was put aside, and a worker has only
    returned because the channel was empty. *)
Definition unstopped σ : Prop :=
  wasTerminated σ = false /\ fatalErr σ = None /\ dropped (history σ) = [] /\
  (forall w arg, workers σ !! w = Some (arg, Returned) -> tasks σ = []).

(** With one worker the statements keep the order of the input: those
    attempted, the one in the worker's hands, the one put aside, and the
    rest of the channel. *)
Definition in_order (statements : list Task) σ : Prop :=
  exists arg p, workers σ = [(arg, p)] /\
    attempted (history σ) ++ inflight (arg, p) ++ dropped (history σ) ++ tasks σ
    = statements /\
    (dropped (history σ) <> [] -> p = Returned).

(** When the workers share their argument, the results in the history and
    the state of the system are those of the attempted statements carried
    out one after the other, in the order of the history. *)
Definition replayed (arg : Arg) (s0 : Sys) σ : Prop :=
  Forall (fun wk => wk.1 = arg) (workers σ) /\
  replay arg s0 (attempted (history σ)) = (attempts (history σ), sys σ).

Definition rank (p : pc) : nat :=
  match p with
  | Returned => 0 | AtRange => 1 | AtIncrement => 2 | AtInsert _ => 3
  | AtError _ _ => 4 | AtWork _ => 5 | AtCheck _ => 6
  end.

Definition succeeded (x : Task * option error) : Prop := x.2 = None.

(** As long as no error is latched every attempt has succeeded, but for
    the failure the worker is about to latch; the latched error is that
    of the last attempt, the only one that failed. *)
Definition first_failure σ : Prop :=
  exists arg p, workers σ = [(arg, p)] /\
    match fatalErr σ with
    | None =>
        match p with
        | AtError statement e =>
            exists before, attempts (history σ) = before ++ [(statement, Some e)] /\
              Forall succeeded before
        | _ => Forall succeeded (attempts (history σ))
        end
    | Some e =>
        (exists before statement,
            attempts (history σ) = before ++ [(statement, Some e)] /\
            Forall succeeded before) /\
        match p with AtWork _ | AtError _ _ | AtInsert _ => False | _ => True end
    end.

(** Worker by worker: its attempts are its increments, and one more while
    it stands between a unit of work and the [Increment] after it. *)
Definition increment_inv σ : Prop :=
  forall w arg p, workers σ !! w = Some (arg, p) ->
    length (List.filter is_attempt (events_of w (history σ)))
    = (length (List.filter is_increment (events_of w (history σ))) + pending (arg, p))%nat.

(** *** More of the history *)

Definition inserted_of (x : nat * event) : option string :=
  match x.2 with Inserted k => Some k | _ => None end.

Definition latched_of (x : nat * event) : option error :=
  match x.2 with Latched err => Some err | _ => None end.

(** The keys that were put into [errorTablesMetadata], and the errors that
    were written to [fatalErr], in the order in which they were. *)
Definition inserted (h : list (nat * event)) : list string := omap inserted_of h.
Definition latched_errors (h : list (nat * event)) : list error := omap latched_of h.

(** The statements whose attempt failed. *)
Definition failed (h : list (nat * event)) : list Task :=
  (List.filter isFailure (attempts h)).*1.

(** The statement whose failure a worker has met and whose key it has not
    put into [errorTablesMetadata] yet. *)
Definition unrecorded (wk : Arg * pc) : list Task :=
  match wk.2 with
  | AtError statement _ | AtInsert statement => [statement]
  | _ => []
  end.





Definition tables_inv (tables : gset string) σ : Prop :=
  errorTablesMetadata σ = list_to_set (inserted (history σ)) ∪ tables.

(** When errors are counted, the keys of the statements that failed are
    those put into [errorTablesMetadata] and those that workers are about
    to put. *)
Definition recorded σ : Prop :=
  key <$> failed (history σ)
  ≡ₚ inserted (history σ) ++ (key <$> flat_map unrecorded (workers σ)).

(** When errors are fatal, nothing is put into [errorTablesMetadata]. *)
Definition unrecording σ : Prop :=
  inserted (history σ) = [] /\
  Forall (fun wk => match wk.2 with AtInsert _ => False | _ => True end) (workers σ).


(** The schedule that lets the workers that have not returned run to
    their end, one after the other. *)
Definition drain (σ : state) : list action :=
  flat_map (fun w => repeat (Step w) (6 * length (tasks σ) + 6))
           (seq 0 (length (workers σ))).
End Pool.
End Pool.

Arguments Pool.state : clear implicits.
Arguments Pool.pc : clear implicits.
Arguments Pool.event : clear implicits.

(** ** The execution engine *)

Section Execute.
(** The state of the database cluster behind the connection pool. *)
Context {World : Type}.
(** [connectionPool.Exec(query, whichConn)]: the error it returns and
    what it does to the database. *)
Variable connectionPool_Exec : World -> string -> Z -> World * option error.
Variable connectionPool_NumConns : Z.
(** [connectionPool.ValidateConnNum(whichConn...)]. *)
Variable connectionPool_ValidateConnNum : list Z -> Z.
Variable onErrorContinue : bool.

Definition statementKey (statement : StatementWithType) : string :=
  String.append (Schema statement) (String.append "." (Name statement)).

Definition Exec (world : World) (statement : StatementWithType) (whichConn : Z)
  : World * option error :=
  connectionPool_Exec world (Statement statement) whichConn.

(** One step of [executeStatementsForConn] for worker [w]. *)
Definition executeStatementsForConn (executeInParallel : bool)
    (w : nat) (whichConn : Z) (p : Pool.pc StatementWithType)
    (σ : Pool.state StatementWithType World Z) : Pool.state StatementWithType World Z :=
  Pool.worker_step Exec statementKey onErrorContinue executeInParallel w whichConn p σ.

(** The connections of the workers: the validated [whichConn] in serial
    mode, the connections [0 .. NumConns-1], each validated, otherwise. *)
Definition connections (executeInParallel : bool) (whichConn : list Z) : list Z :=
  if negb executeInParallel
  then [connectionPool_ValidateConnNum whichConn]
  else map (fun i => connectionPool_ValidateConnNum [i]) (seqZ 0 connectionPool_NumConns).

(** [ExecuteStatements], up to the point the scheduler has brought it to:
    [world], [terminated] and [tables] are the database, [wasTerminated]
    and [errorTablesMetadata] at the call, [bar] the increments the
    progress bar has received before. *)
Definition ExecuteStatements_run (statements : list StatementWithType)
    (executeInParallel : bool) (whichConn : list Z)
    (world : World) (terminated : bool) (tables : gset string) (bar : nat)
    (schedule : list Pool.action) : Pool.state StatementWithType World Z :=
  Pool.run Exec statementKey onErrorContinue executeInParallel schedule
    (Pool.start statements world terminated 0 tables bar
                (connections executeInParallel whichConn)).

(** What [ExecuteStatements] returns, when the schedule lets it return. *)
Definition ExecuteStatements (statements : list StatementWithType)
    (executeInParallel : bool) (whichConn : list Z)
    (world : World) (terminated : bool) (tables : gset string) (bar : nat)
    (schedule : list Pool.action) : option outcome :=
  Pool.outcome_of
    (ExecuteStatements_run statements executeInParallel whichConn
                           world terminated tables bar schedule).

(** [ExecuteStatementsAndCreateProgressBar]: the bar is made for
    [len(statements)] steps and has received no increment when
    [ExecuteStatements] is called; [Start] and [Finish] only draw it.  The
    result is the state of the run, whose [progressBar] counts the
    increments, with the total of the bar. *)
Definition ExecuteStatementsAndCreateProgressBar_run (statements : list StatementWithType)
    (executeInParallel : bool) (whichConn : list Z)
    (world : World) (terminated : bool) (tables : gset string)
    (schedule : list Pool.action) : nat * Pool.state StatementWithType World Z :=
  let total := length statements in
  (total, ExecuteStatements_run statements executeInParallel whichConn
                                world terminated tables 0 schedule).

Definition ExecuteStatementsAndCreateProgressBar (statements : list StatementWithType)
    (executeInParallel : bool) (whichConn : list Z)
    (world : World) (terminated : bool) (tables : gset string)
    (schedule : list Pool.action) : option outcome :=
  ExecuteStatements statements executeInParallel whichConn world terminated tables 0 schedule.
End Execute.

(** ** The file writer *)

(** An [*os.File]: [nil], or the handle of the output file. *)
Inductive File : Type := nilFile | openFile.

(** [os.ErrInvalid]. *)
Definition ErrInvalid : error := "invalid argument".

(** [pwrite]: the bytes [b] placed at position [off] of a file, which grows
    when it is too short, the gap filled with zero bytes. *)
Definition pwrite (content b : list Byte.byte) (off : nat) : list Byte.byte :=
  take off (content ++ replicate (off - length content)%nat Byte.x00)
  ++ b ++ drop (off + length b)%nat content.

(** [File.WriteAt(b, off)] of package [os], on the content of the file: a [nil] file is
    [ErrInvalid], a negative offset an error, and the loop over [pwrite] is
    not entered for an empty [b].  A device that fails is not modelled. *)
Definition WriteAt (f : File) (content b : list Byte.byte) (off : Z) : list Byte.byte * option error :=
  match f with
  | nilFile => (content, Some ErrInvalid)
  | openFile =>
      if off <? 0 then (content, Some "negative offset")
      else match b with
           | [] => (content, None)
           | _ => (pwrite content b (Z.to_nat off), None)
           end
  end.

(** Reading [n] bytes back at position [off]. *)
Definition ReadAt (content : list Byte.byte) (off : Z) (n : nat) : list Byte.byte :=
  take n (drop (Z.to_nat off) content).

Section Write.
Variable connectionPool_NumConns : Z.
Variable onErrorContinue : bool.
(** The error of [os.OpenFile(filename, O_CREATE|O_WRONLY, 0640)], if it
    fails. *)
Variable os_OpenFile_error : string -> option error.

Definition os_OpenFile (filename : string) : File * option error :=
  match os_OpenFile_error filename with
  | Some err => (nilFile, Some err)
  | None => (openFile, None)
  end.

Definition offsetKey (statement : StatementWithOffset) : string :=
  String.append (OSchema statement) (String.append "." (OName statement)).

(** [[]byte(statement.Statement)]. *)
Definition text (statement : StatementWithOffset) : list Byte.byte :=
  list_byte_of_string (OStatement statement).

Definition Write (content : list Byte.byte) (statement : StatementWithOffset) (outputFile : File)
  : list Byte.byte * option error :=
  WriteAt outputFile content (text statement) (Offset statement).

(** One step of [writeStatements] for worker [w]. *)
Definition writeStatements (executeInParallel : bool)
    (w : nat) (outputFile : File) (p : Pool.pc StatementWithOffset)
    (σ : Pool.state StatementWithOffset (list Byte.byte) File)
  : Pool.state StatementWithOffset (list Byte.byte) File :=
  Pool.worker_step Write offsetKey onErrorContinue executeInParallel w outputFile p σ.

(** The workers of the writer: one in serial mode, [NumConns] otherwise,
    all on the same handle. *)
Definition writers (executeInParallel : bool) (f : File) : list File :=
  if negb executeInParallel then [f]
  else map (fun _ => f) (seqZ 0 connectionPool_NumConns).

(** [WriteStatements], up to the point the scheduler has brought it to:
    the error of [gplog.Fatal] if the file cannot be opened and errors
    are fatal, the state of the pool otherwise. *)
Definition WriteStatements_run (statements : list StatementWithOffset)
    (executeInParallel : bool) (filename : string)
    (content : list Byte.byte) (terminated : bool) (tables : gset string) (bar : nat)
    (schedule : list Pool.action)
  : error + Pool.state StatementWithOffset (list Byte.byte) File :=
  let '(f, err) := os_OpenFile filename in
  let pool numErrors :=
    Pool.run Write offsetKey onErrorContinue executeInParallel schedule
      (Pool.start statements content terminated numErrors tables bar
                  (writers executeInParallel f)) in
  match err with
  | Some e => if onErrorContinue then inr (pool (0 + 1)) else inl e
  | None => inr (pool 0)
  end.

Definition WriteStatements (statements : list StatementWithOffset)
    (executeInParallel : bool) (filename : string)
    (content : list Byte.byte) (terminated : bool) (tables : gset string) (bar : nat)
    (schedule : list Pool.action) : option outcome :=
  match WriteStatements_run statements executeInParallel filename
                            content terminated tables bar schedule with
  | inl e => Some (Fatal e)
  | inr σ => Pool.outcome_of σ
  end.
End Write.

(** The bytes [Offset .. Offset + len - 1] that a statement is written to,
    and two statements whose regions have no byte in common. *)
Definition textLength (statement : StatementWithOffset) : Z :=
  Z.of_nat (length (text statement)).

Definition disjoint (s t : StatementWithOffset) : Prop :=
  textLength s = 0 \/ textLength t = 0 \/
  Offset s + textLength s <= Offset t \/ Offset t + textLength t <= Offset s.

(** No two statements of the sequence overlap. *)
Fixpoint nonoverlapping (statements : list StatementWithOffset) : Prop :=
  match statements with
  | [] => True
  | s :: rest => Forall (disjoint s) rest /\ nonoverlapping rest
  end.

(** The statements and the environment of the worked examples. *)
Module Example.
(** A database that logs the queries it is sent and rejects those that
    begin with [BAD]. *)
Definition World : Type := list string.

Definition Exec (world : World) (query : string) (whichConn : Z) : World * option error :=
  (world ++ [query], if HasPrefix query "BAD" then Some "syntax error" else None).

Definition ValidateConnNum (whichConn : list Z) : Z :=
  match whichConn with [] => 0 | n :: _ => n end.

Definition NumConns : Z := 2.

Definition index1 := mkStatementWithType "public" "i1" "INDEX" "public.t1" "CREATE INDEX i1 ON t1(a);".
Definition index1' := mkStatementWithType "public" "i1b" "INDEX" "public.t1" "CREATE INDEX i1b ON t1(b);".
Definition index2 := mkStatementWithType "public" "i2" "INDEX" "public.t2" "CREATE INDEX i2 ON t2(a);".
Definition comment1 :=
  mkStatementWithType "public" "i1" "COMMENT METADATA" "public.t1" "COMMENT ON INDEX i1 IS 'x';".

Definition good := mkStatementWithType "public" "t1" "TABLE" "" "CREATE TABLE t1 (a int);".
Definition bad := mkStatementWithType "public" "t2" "TABLE" "" "BAD TABLE t2;".

(** Two objects whose schema and name differ and whose keys do not. *)
Definition dotted1 := mkStatementWithType "a.b" "c" "TABLE" "" "BAD 1;".
Definition dotted2 := mkStatementWithType "a" "b.c" "TABLE" "" "BAD 2;".
Definition odotted1 := mkStatementWithOffset "a.b" "c" "CREATE 1;" (-1).
Definition odotted2 := mkStatementWithOffset "a" "b.c" "CREATE 2;" (-1).

(** Three statements at the offsets 0, 50 and 120. *)
Definition w0 := mkStatementWithOffset "public" "t1" "CREATE TABLE t1 (a int);" 0.
Definition w50 := mkStatementWithOffset "public" "t2" "CREATE TABLE t2 (b text);" 50.
Definition w120 := mkStatementWithOffset "public" "i1" "CREATE INDEX i1 ON t1(a);" 120.

(** A statement that begins in the middle of the text of [w0]. *)
Definition over := mkStatementWithOffset "public" "t1" "DROP TABLE t1;" 10.

Definition opens (filename : string) : option error := None.

(** The schedule of a serial run: the one worker, step after step. *)
Definition serial (n : nat) : list Pool.action := repeat (Pool.Step 0) n.

(** Two workers taking their steps in turn. *)
Definition alternate (n : nat) : list Pool.action :=
  concat (repeat [Pool.Step 0; Pool.Step 1] n).

(** A serial run over a statement that fails, errors being fatal. *)
Definition fatal_run : Pool.state StatementWithType World Z :=
  ExecuteStatements_run Exec NumConns ValidateConnNum false
    [bad] false [] [] false ∅ 0 (serial 6).


Definition counted_run : Pool.state StatementWithType World Z :=
  ExecuteStatements_run Exec NumConns ValidateConnNum true
    [good; bad; good] false [] [] false ∅ 0 (serial 20).

(** The pool of two writers on the file that was opened, at the end of
    its run over the three statements. *)
Definition written : Pool.state StatementWithOffset (list Byte.byte) File :=
  Pool.run Write offsetKey true true (alternate 12)
    (Pool.start [w0; w50; w120] [] false 0 ∅ 0 [openFile; openFile]).
End Example.

(* ================================================================= *)
(** * Properties *)

(** ** Strings *)

Lemma HasPrefix_app (s prefix : string) :
  HasPrefix s prefix = true <-> exists rest, s = String.append prefix rest.
Proof.
  revert s. induction prefix as [|c p IH]; intros s; simpl.
  - split; [intros _; by exists s | done].
  - destruct s as [|d s].
    + split; [discriminate | intros [rest H]; discriminate].
    + rewrite andb_true_iff, IH, Ascii.eqb_eq. split.
      * intros [-> [rest ->]]. eauto.
      * intros [rest H]. injection H as -> ->. eauto.
Qed.

(** [Contains] finds exactly the occurrences of [substr]. *)
Lemma Contains_spec (s substr : string) :
  Contains s substr = true <->
  exists before after, s = String.append before (String.append substr after).
Proof.
  induction s as [|d s IH]; simpl; rewrite orb_true_iff.
  - rewrite HasPrefix_app. split.
    + intros [[rest H] | H]; [exists "", rest; exact H | discriminate].
    + intros [before [after H]]. left. destruct before; [eauto | discriminate].
  - rewrite HasPrefix_app, IH. split.
    + intros [[rest H] | [before [after H]]].
      * exists "", rest. exact H.
      * exists (String d before), after. simpl. by rewrite H.
    + intros [[|c before] [after H]]; simpl in H.
      * left. eauto.
      * right. injection H as -> ->. eauto.
Qed.

(** ** Batching *)

Section BatchFacts.
Import Batch.
Variable skipIndex : bool.

Lemma loop_cons st statement statements :
  loop skipIndex st (statement :: statements)
  = loop skipIndex (body skipIndex st statement) statements.
Proof. reflexivity. Qed.

(** The batches only grow, at their ends, and what the loop appends is an
    interleaving of the statements it ran over. *)
Lemma loop_interleave statements : forall st,
  exists l1 l2 l3,
    firstBatch (loop skipIndex st statements) = firstBatch st ++ l1 /\
    secondBatch (loop skipIndex st statements) = secondBatch st ++ l2 /\
    thirdBatch (loop skipIndex st statements) = thirdBatch st ++ l3 /\
    Interleave3 l1 l2 l3 statements.
Proof.
  induction statements as [|x l IH]; intros st.
  - exists [], [], []. rewrite !app_nil_r. repeat split; constructor.
  - rewrite loop_cons.
    destruct (IH (body skipIndex st x)) as (l1 & l2 & l3 & H1 & H2 & H3 & HI).
    rewrite H1, H2, H3. unfold body.
    destruct (toFirstBatch _ _ _); [|destruct (Contains _ _)]; simpl.
    + exists (x :: l1), l2, l3. rewrite <- app_assoc. repeat split; by constructor.
    + exists l1, l2, (x :: l3). rewrite <- app_assoc. repeat split; by constructor.
    + exists l1, (x :: l2), l3. rewrite <- app_assoc. repeat split; by constructor.
Qed.
End BatchFacts.

Section InterleaveFacts.
Context {A : Type}.
Implicit Types l : list A.

Lemma Interleave3_length l1 l2 l3 l :
  Interleave3 l1 l2 l3 l -> (length l1 + length l2 + length l3 = length l)%nat.
Proof. induction 1; simpl; lia. Qed.

Lemma Interleave3_Permutation l1 l2 l3 l :
  Interleave3 l1 l2 l3 l -> l1 ++ l2 ++ l3 ≡ₚ l.
Proof.
  induction 1; simpl.
  - done.
  - by constructor.
  - rewrite <- Permutation_middle. by constructor.
  - rewrite app_assoc, <- Permutation_middle, <- app_assoc. by constructor.
Qed.

Lemma Interleave3_sublist l1 l2 l3 l :
  Interleave3 l1 l2 l3 l -> sublist l1 l /\ sublist l2 l /\ sublist l3 l.
Proof.
  induction 1 as [| x ? ? ? ? _ (?&?&?) | x ? ? ? ? _ (?&?&?) | x ? ? ? ? _ (?&?&?)];
    repeat split; try constructor; done.
Qed.

Lemma Interleave3_filter (p : A -> bool) l1 l2 l3 l :
  Interleave3 l1 l2 l3 l ->
  Interleave3 (List.filter p l1) (List.filter p l2) (List.filter p l3) (List.filter p l).
Proof. induction 1; simpl; try destruct (p x); try constructor; done. Qed.
End InterleaveFacts.

Lemma BatchPostdataStatements_partition_aux (statements : list StatementWithType) (skipIndex : bool) :
  let st := Batch.loop skipIndex Batch.init statements in
  Interleave3 (Batch.firstBatch st) (Batch.secondBatch st) (Batch.thirdBatch st) statements.
Proof.
  cbv zeta.
  destruct (loop_interleave skipIndex statements Batch.init)
    as (l1 & l2 & l3 & H1 & H2 & H3 & HI).
  by rewrite H1, H2, H3.
Qed.

(** C1. For every input and every value of [skipIndex], the three batches
    are an interleaving of the input: their lengths add up to the length of
    the input, every input record is in exactly one of them (the batches
    put together are a rearrangement of the input), and each batch keeps
    its records in the order of the input. *)
Theorem BatchPostdataStatements_partition (statements : list StatementWithType) (skipIndex : bool) :
  let '(first, second, third) := BatchPostdataStatements statements skipIndex in
  (length first + length second + length third = length statements)%nat /\
  Interleave3 first second third statements /\
  first ++ second ++ third ≡ₚ statements /\
  sublist first statements /\ sublist second statements /\ sublist third statements.
Proof.
  pose proof (BatchPostdataStatements_partition_aux statements skipIndex) as HI.
  unfold BatchPostdataStatements. simpl in HI.
  split; [by apply Interleave3_length|].
  split; [done|].
  split; [by apply Interleave3_Permutation|].
  by apply Interleave3_sublist.
Qed.

Section BatchRouting.
Import Batch.

Lemma filter_snoc {A} (p : A -> bool) (l : list A) (x : A) :
  List.filter p (l ++ [x]) = List.filter p l ++ (if p x then [x] else []).
Proof. by rewrite List.filter_app. Qed.

Lemma filter_head {A} (p : A -> bool) (l : list A) (x : A) :
  List.filter p (x :: l) = if p x then x :: List.filter p l else List.filter p l.
Proof. reflexivity. Qed.

Lemma isIndex_ObjectType statement :
  isIndex statement = true -> ObjectType statement = "INDEX".
Proof. apply String.eqb_eq. Qed.

Lemma isIndex_not_metadata statement :
  isIndex statement = true -> isMetadata statement = false.
Proof. intros H. unfold isMetadata. by rewrite (isIndex_ObjectType _ H). Qed.

Lemma present_insert_eq ref m : present ref (<[ref := true]> m) = true.
Proof. apply bool_decide_eq_true. rewrite lookup_insert_eq. eauto. Qed.

Lemma present_insert_ne ref ref' m :
  ref' <> ref -> present ref (<[ref' := true]> m) = present ref m.
Proof. intros H. unfold present. by rewrite lookup_insert_ne. Qed.

(** One iteration without [skipIndex], seen from one reference object:
    its first index record goes to the first batch and marks the object
    in [indexMap]. *)
Lemma body_index_new ref st x :
  isIndexOn ref x = true -> present ref (indexMap st) = false ->
  body false st x =
    mkState (<[ref := true]> (indexMap st)) (firstBatch st ++ [x])
            (secondBatch st) (thirdBatch st).
Proof.
  unfold isIndexOn. intros [Hidx Href%String.eqb_eq]%andb_true_iff Hpr.
  unfold body, toFirstBatch. fold (isIndex x). by rewrite Hidx, Href, Hpr.
Qed.

(** Its later index records go to the second batch. *)
Lemma body_index_seen ref st x :
  isIndexOn ref x = true -> present ref (indexMap st) = true ->
  body false st x =
    mkState (indexMap st) (firstBatch st) (secondBatch st ++ [x]) (thirdBatch st).
Proof.
  unfold isIndexOn. intros [Hidx Href%String.eqb_eq]%andb_true_iff Hpr.
  unfold body, toFirstBatch. fold (isIndex x) (isMetadata x).
  by rewrite Hidx, Href, Hpr, (isIndex_not_metadata _ Hidx).
Qed.

(** Every other record leaves the object's index records and its mark
    as they are. *)
Lemma body_index_other ref st x :
  isIndexOn ref x = false ->
  let st' := body false st x in
  List.filter (isIndexOn ref) (firstBatch st') = List.filter (isIndexOn ref) (firstBatch st) /\
  List.filter (isIndexOn ref) (secondBatch st') = List.filter (isIndexOn ref) (secondBatch st) /\
  List.filter (isIndexOn ref) (thirdBatch st') = List.filter (isIndexOn ref) (thirdBatch st) /\
  present ref (indexMap st') = present ref (indexMap st).
Proof.
  intros Hp. simpl. unfold body.
  destruct (toFirstBatch false (indexMap st) x) eqn:Hfirst;
    [|destruct (Contains _ _)]; simpl;
    rewrite ?filter_snoc, ?Hp, ?app_nil_r; repeat split.
  apply present_insert_ne. intros Href.
  unfold toFirstBatch in Hfirst. fold (isIndex x) in Hfirst.
  apply andb_true_iff in Hfirst as [Hidx _].
  unfold isIndexOn in Hp. rewrite Hidx, Href, String.eqb_refl in Hp. discriminate.
Qed.

(** Without [skipIndex]: of the index records of one reference object,
    the loop sends the first to the first batch unless the object is
    already in [indexMap], and every other one to the second batch. *)
Lemma loop_index_first ref statements : forall st,
  let p := isIndexOn ref in
  let st' := loop false st statements in
  let found := List.filter p statements in
  List.filter p (firstBatch st') =
    List.filter p (firstBatch st) ++ (if present ref (indexMap st) then [] else take 1 found) /\
  List.filter p (secondBatch st') =
    List.filter p (secondBatch st) ++ (if present ref (indexMap st) then found else drop 1 found) /\
  List.filter p (thirdBatch st') = List.filter p (thirdBatch st).
Proof.
  induction statements as [|x l IH]; intros st; cbv zeta.
  - simpl. destruct (present _ _); by rewrite !app_nil_r.
  - rewrite loop_cons. specialize (IH (body false st x)). cbv zeta in IH.
    destruct IH as (IH1 & IH2 & IH3). rewrite IH1, IH2, IH3. clear IH1 IH2 IH3.
    rewrite filter_head.
    destruct (isIndexOn ref x) eqn:Hp.
    + destruct (present ref (indexMap st)) eqn:Hpr.
      * rewrite (body_index_seen ref st x Hp Hpr). simpl.
        by rewrite Hpr, filter_snoc, Hp, <- app_assoc.
      * rewrite (body_index_new ref st x Hp Hpr). simpl.
        by rewrite present_insert_eq, filter_snoc, Hp, <- app_assoc, take_0, drop_0.
    + by destruct (body_index_other ref st x Hp) as (-> & -> & -> & ->).
Qed.
End BatchRouting.

(** C2. Without [skipIndex], for every reference object with at least one
    ["INDEX"] record, the earliest such record of the input is the only one
    of them in the first batch, and all the others are in the second batch
    (none is in the third). *)
Theorem BatchPostdataStatements_index_first
    (statements : list StatementWithType) (ref : string)
    (earliest : StatementWithType) (others : list StatementWithType) :
  List.filter (isIndexOn ref) statements = earliest :: others ->
  let '(first, second, third) := BatchPostdataStatements statements false in
  List.filter (isIndexOn ref) first = [earliest] /\
  List.filter (isIndexOn ref) second = others /\
  List.filter (isIndexOn ref) third = [].
Proof.
  intros Hfound. unfold BatchPostdataStatements.
  destruct (loop_index_first ref statements Batch.init) as (H1 & H2 & H3).
  rewrite Hfound in H1, H2. by rewrite H1, H2, H3.
Qed.

Section BatchSkipIndex.
Import Batch.

(** With [skipIndex] the first batch receives exactly the records of type
    ["INDEX"] or ["INDEX METADATA"], whatever [indexMap] holds. *)
Lemma loop_skipIndex statements : forall st,
  let q := isIndexOrIndexMetadata in
  let st' := loop true st statements in
  firstBatch st' = firstBatch st ++ List.filter q statements /\
  List.filter q (secondBatch st') = List.filter q (secondBatch st) /\
  List.filter q (thirdBatch st') = List.filter q (thirdBatch st).
Proof.
  induction statements as [|x l IH]; intros st; cbv zeta.
  - simpl. by rewrite app_nil_r.
  - rewrite loop_cons, filter_head.
    destruct (IH (body true st x)) as (-> & -> & ->).
    unfold body, toFirstBatch. fold (isIndex x) (isIndexOrIndexMetadata x).
    destruct (isIndexOrIndexMetadata x) eqn:Hq; [|destruct (Contains _ _)]; simpl;
      rewrite ?filter_snoc, ?Hq, <- ?app_assoc, ?app_nil_r; done.
Qed.

(** Whatever [skipIndex] is, no record whose type contains [" METADATA"]
    is appended to the second batch. *)
Lemma loop_metadata skipIndex statements : forall st,
  List.filter isMetadata (secondBatch (loop skipIndex st statements))
  = List.filter isMetadata (secondBatch st).
Proof.
  induction statements as [|x l IH]; intros st; [done|].
  rewrite loop_cons, IH. unfold body.
  destruct (toFirstBatch skipIndex (indexMap st) x); [done|].
  destruct (Contains _ _) eqn:Hm; [done|]. simpl.
  unfold isMetadata at 1. by rewrite filter_snoc, Hm, app_nil_r.
Qed.
End BatchSkipIndex.

(** C6. With [skipIndex], the first batch is exactly the sequence of the
    input's records of type ["INDEX"] or ["INDEX METADATA"]: every one of
    them is there, however many records of the same reference object came
    before it, and none of them is in the second or the third batch. *)
Theorem BatchPostdataStatements_skipIndex (statements : list StatementWithType) :
  let '(first, second, third) := BatchPostdataStatements statements true in
  first = List.filter isIndexOrIndexMetadata statements /\
  List.filter isIndexOrIndexMetadata second = [] /\
  List.filter isIndexOrIndexMetadata third = [].
Proof.
  unfold BatchPostdataStatements.
  by destruct (loop_skipIndex statements Batch.init) as (-> & -> & ->).
Qed.

(** C7. The second batch never holds a record whose type contains
    [" METADATA"]: the records of that kind are shared between the first
    and the third batch, each in one of them and in the order of the
    input. *)
Theorem BatchPostdataStatements_metadata (statements : list StatementWithType) (skipIndex : bool) :
  let '(first, second, third) := BatchPostdataStatements statements skipIndex in
  List.filter isMetadata second = [] /\
  Forall (fun statement => isMetadata statement = false) second /\
  Interleave3 (List.filter isMetadata first) [] (List.filter isMetadata third)
              (List.filter isMetadata statements).
Proof.
  pose proof (BatchPostdataStatements_partition_aux statements skipIndex) as HI.
  unfold BatchPostdataStatements in *.
  pose proof (loop_metadata skipIndex statements Batch.init) as Hm. simpl in Hm.
  split; [done|]. split.
  - apply List.Forall_forall. intros x Hx.
    destruct (isMetadata x) eqn:E; [|done].
    assert (In x (List.filter isMetadata (Batch.secondBatch (Batch.loop skipIndex Batch.init statements))))
      as Hin by (apply filter_In; done).
    rewrite Hm in Hin. destruct Hin.
  - apply (Interleave3_filter isMetadata) in HI. by rewrite Hm in HI.
Qed.

(** ** [int32] *)

Lemma wrap32_small z : - 2 ^ 31 <= z < 2 ^ 31 -> wrap32 z = z.
Proof. intros H. unfold wrap32. rewrite Z.mod_small; lia. Qed.

Lemma wrap32_add_l a b : wrap32 (wrap32 a + b) = wrap32 (a + b).
Proof.
  unfold wrap32. f_equal.
  replace ((a + 2 ^ 31) mod 2 ^ 32 - 2 ^ 31 + b + 2 ^ 31)
    with ((a + 2 ^ 31) mod 2 ^ 32 + b) by lia.
  rewrite Z.add_mod_idemp_l by lia. f_equal. lia.
Qed.

Lemma sum_list_with_insert {A} (f : A -> nat) (l : list A) (i : nat) (x y : A) :
  l !! i = Some x ->
  (sum_list_with f (<[i := y]> l) + f x = sum_list_with f l + f y)%nat.
Proof.
  revert i. induction l as [|z l IH]; intros [|i] H; simpl in *; try done.
  - injection H as ->. lia.
  - specialize (IH i H). lia.
Qed.

(** ** The pool *)

Section PoolFacts.
Import Pool.
Context {Task Sys Arg : Type}.
Variable work : Sys -> Task -> Arg -> Sys * option error.
Variable key : Task -> string.
Variable onErrorContinue : bool.
Variable executeInParallel : bool.

Abbreviation state := (Pool.state Task Sys Arg).
Abbreviation step := (Pool.step work key onErrorContinue executeInParallel).
Abbreviation run := (Pool.run work key onErrorContinue executeInParallel).
Abbreviation worker_step := (Pool.worker_step work key onErrorContinue executeInParallel).
Abbreviation emits := (Pool.emits key onErrorContinue).
Abbreviation replayed := (Pool.replayed work).
Abbreviation recorded := (Pool.recorded key).
Implicit Types (σ : state) (h : list (nat * Pool.event Task)) (w : nat).

Lemma run_snoc schedule a σ : run (schedule ++ [a]) σ = step (run schedule σ) a.
Proof. unfold Pool.run. by rewrite foldl_app. Qed.

Lemma run_app schedule schedule' σ :
  run (schedule ++ schedule') σ = run schedule' (run schedule σ).
Proof. unfold Pool.run. by rewrite foldl_app. Qed.

(** A property that the start has and that every step keeps holds
    wherever a schedule leads. *)
Lemma run_invariant (I : state -> Prop) σ0 :
  I σ0 -> (forall σ a, I σ -> I (step σ a)) -> forall schedule, I (run schedule σ0).
Proof.
  intros H0 Hstep schedule. induction schedule as [|a schedule IH] using rev_ind.
  - exact H0.
  - rewrite run_snoc. by apply Hstep.
Qed.

(** The same for a property of the schedule and the state it leads to. *)
Lemma run_invariant2 (I : list action -> state -> Prop) σ0 :
  I [] σ0 ->
  (forall schedule σ a, I schedule σ -> I (schedule ++ [a]) (step σ a)) ->
  forall schedule, I schedule (run schedule σ0).
Proof.
  intros H0 Hstep schedule. induction schedule as [|a schedule IH] using rev_ind.
  - exact H0.
  - rewrite run_snoc. by apply Hstep.
Qed.

(** The cases of a step: the tactic leaves one goal for each transition
    of a worker, the worker's entry in [Hw]. *)
Ltac step_cases σ a w Hw :=
  destruct a as [|w]; simpl;
  [| destruct (workers σ !! w) as [[? [| ? | ? | ? ? | ? | |]]|] eqn:Hw; simpl;
     [ destruct (tasks σ) eqn:Htasks; simpl
     | destruct (mustStop σ) eqn:Hstop; simpl
     | destruct (work (sys σ) _ _) as [? [?|]] eqn:Hwork; simpl
     | destruct onErrorContinue eqn:Hcont; simpl
     | | | | ] ].

Lemma fatalErr_step σ a : is_Some (fatalErr σ) -> is_Some (fatalErr (step σ a)).
Proof. intros H. step_cases σ a w Hw; eauto. Qed.


Lemma tasks_step σ a : tasks (step σ a) `suffix_of` tasks σ.
Proof.
  step_cases σ a w Hw; rewrite ?Htasks; try done.
  by apply suffix_cons_r.
Qed.

Lemma length_workers_step σ a : length (workers (step σ a)) = length (workers σ).
Proof. step_cases σ a w Hw; by rewrite ?length_insert. Qed.

(** A worker that has returned takes no further step. *)
Lemma Returned_step σ a w arg :
  workers σ !! w = Some (arg, Returned) -> workers (step σ a) !! w = Some (arg, Returned).
Proof.
  intros H. step_cases σ a w' Hw; try done;
    (destruct (decide (w' = w)) as [->|Hne];
     [congruence | by rewrite list_lookup_insert_ne]).
Qed.


(** What a step of another worker, or a step that moves worker [w'],
    makes of the entry of worker [w]. *)
Lemma lookup_goto_ne w w' arg p σ :
  w' <> w -> workers (goto w' arg p σ) !! w = workers σ !! w.
Proof. intros H. simpl. by rewrite list_lookup_insert_ne. Qed.

Lemma lookup_goto_eq w arg arg' p p' σ :
  workers σ !! w = Some (arg', p') -> workers (goto w arg p σ) !! w = Some (arg, p).
Proof. intros H%lookup_lt_Some. simpl. by rewrite list_lookup_insert_eq. Qed.



(** A step adds at most one event, of the worker that takes it. *)
Lemma history_step σ a :
  history (step σ a) = history σ \/
  exists w arg p e, a = Step w /\ workers σ !! w = Some (arg, p) /\
    history (step σ a) = history σ ++ [(w, e)] /\ emits p e.
Proof.
  step_cases σ a w Hw; try (by left);
    right; eexists _, _, _, _; repeat split; eauto; done.
Qed.

Lemma events_of_snoc w w' h (e : event Task) :
  events_of w (h ++ [(w', e)]) = events_of w h ++ (if decide (w' = w) then [e] else []).
Proof.
  unfold events_of. rewrite omap_app. f_equal. simpl.
  destruct (decide (w' = w)) as [->|Hne].
  - by rewrite Nat.eqb_refl.
  - apply Nat.eqb_neq in Hne. by rewrite Hne.
Qed.






(** *** Counting *)

Lemma attempts_snoc h (x : nat * event Task) :
  attempts (h ++ [x]) = attempts h ++ option_list (attempt_of x).
Proof. unfold attempts. rewrite omap_app. simpl. by destruct (attempt_of x). Qed.

Lemma dropped_snoc h (x : nat * event Task) :
  dropped (h ++ [x]) = dropped h ++ option_list (dropped_of x).
Proof. unfold dropped. rewrite omap_app. simpl. by destruct (dropped_of x). Qed.

Lemma count_snoc {A} (f : A -> bool) (l : list A) (x : A) :
  length (List.filter f (l ++ [x])) = (length (List.filter f l) + if f x then 1 else 0)%nat.
Proof. rewrite List.filter_app, length_app. simpl. by destruct (f x). Qed.

Lemma failures_snoc h (x : nat * event Task) :
  failures (h ++ [x]) =
  (failures h + match attempt_of x with Some (_, Some _) => 1 | _ => 0 end)%nat.
Proof.
  unfold failures. rewrite attempts_snoc, List.filter_app, length_app.
  by destruct (attempt_of x) as [[? [?|]]|].
Qed.

Section Counting.
Variables (bar : nat) (numErrors0 : Z).
Abbreviation count_inv := (@Pool.count_inv Task Sys Arg onErrorContinue bar numErrors0).

Lemma count_inv_step σ a : count_inv σ -> count_inv (step σ a).
Proof.
  unfold Pool.count_inv. cbv zeta.
  intros (Hbar & Hatt & Hnum & Hfail & Hlat & Hcnt & Hfatal & Hsome).
  step_cases σ a w Hw; try done;
    unfold increments, counted, latched in *;
    rewrite ?attempts_snoc, ?failures_snoc, ?count_snoc, ?length_app; simpl;
    repeat match goal with
    | Hw : workers σ !! ?i = Some _
      |- context [sum_list_with ?f (<[?i := ?y]> (workers σ))] =>
        let H := fresh in
        pose proof (sum_list_with_insert f _ _ _ y Hw) as H;
        generalize dependent (sum_list_with f (<[i := y]> (workers σ))); intros
    end;
    unfold pending, unhandled in *; simpl in *;
    try (destruct executeInParallel; unfold atomic_AddInt32);
    rewrite ?Hnum, ?wrap32_add_l;
    repeat split; try lia; try (f_equal; lia);
    try (intros Hc; first [specialize (Hlat Hc) | specialize (Hcnt Hc)]; lia);
    try (intros Hz; apply Hfatal; lia);
    try (intros Hz; apply Hsome; lia);
    try congruence; try (by eauto).
Qed.

Lemma count_inv_start statements s terminated tables args :
  - 2 ^ 31 <= numErrors0 < 2 ^ 31 ->
  count_inv (start statements s terminated numErrors0 tables bar args).
Proof.
  intros Hrange. unfold Pool.count_inv, increments, counted, latched, failures. simpl.
  assert (sum_list_with pending ((fun arg : Arg => (arg, @AtRange Task)) <$> args) = 0%nat
          /\ sum_list_with unhandled ((fun arg : Arg => (arg, @AtRange Task)) <$> args) = 0%nat)
    as [-> ->] by (induction args as [|? ? [? ?]]; simpl; auto).
  rewrite Z.add_0_r, wrap32_small by done. repeat split; auto with lia.
Qed.

Lemma count_inv_run statements s terminated tables args schedule :
  - 2 ^ 31 <= numErrors0 < 2 ^ 31 ->
  count_inv (run schedule (start statements s terminated numErrors0 tables bar args)).
Proof.
  intros Hrange. apply run_invariant; [by apply count_inv_start | apply count_inv_step].
Qed.
End Counting.

Lemma sum_list_with_lookup {A} (f : A -> nat) (l : list A) i x :
  l !! i = Some x -> (f x <= sum_list_with f l)%nat.
Proof.
  revert i. induction l as [|y l IH]; intros [|i] H; simpl in *; try done.
  - injection H as ->. lia.
  - specialize (IH i H). lia.
Qed.

Lemma sum_list_with_finished (f : Arg * pc Task -> nat) l :
  (forall arg, f (arg, Returned) = 0%nat) ->
  forallb isReturned l = true -> sum_list_with f l = 0%nat.
Proof.
  intros Hf. induction l as [|[arg p] l IH]; simpl; [done|].
  intros [Hp Hl]%andb_true_iff. destruct p; try done. rewrite Hf, IH; done.
Qed.

(** *** Where the statements are *)

Lemma holding_insert (l : list (Arg * pc Task)) i x y :
  l !! i = Some x -> holding (<[i := y]> l) ++ inflight x ≡ₚ holding l ++ inflight y.
Proof.
  revert i. induction l as [|z l IH]; intros [|i] H; simpl in *; try done.
  - injection H as ->.
    rewrite (Permutation_app_comm (inflight y) (holding l)), <- app_assoc.
    rewrite (Permutation_app_comm (inflight y) (inflight x)), app_assoc.
    by rewrite (Permutation_app_comm (holding l) (inflight x)).
  - rewrite <- !app_assoc. f_equiv. by apply IH.
Qed.

Lemma holding_finished (l : list (Arg * pc Task)) : forallb isReturned l = true -> holding l = [].
Proof.
  induction l as [|[arg p] l IH]; simpl; [done|].
  intros [Hp Hl]%andb_true_iff. destruct p; try done. by rewrite IH.
Qed.

Lemma attempted_snoc h (x : nat * event Task) :
  attempted (h ++ [x]) = attempted h ++ (option_list (attempt_of x)).*1.
Proof. unfold attempted. by rewrite attempts_snoc, fmap_app. Qed.

Lemma conserved_step statements σ a :
  conserved statements σ -> conserved statements (step σ a).
Proof.
  unfold conserved. intros HI.
  step_cases σ a w Hw; try done;
    rewrite ?attempted_snoc, ?dropped_snoc; simpl; rewrite ?app_nil_r;
    match goal with
    | |- context [holding (<[_ := ?y]> _)] =>
        pose proof (holding_insert _ _ _ y Hw) as H; simpl in H; rewrite ?app_nil_r in H
    end; rewrite <- HI, ?Htasks; simpl;
    try (by rewrite H);
    try (rewrite <- H; rewrite <- ?app_assoc; simpl; by rewrite <- ?Permutation_middle);
    try (rewrite H; rewrite <- ?app_assoc; simpl; by rewrite <- ?Permutation_middle).
  apply Permutation_app_inv_r in H. by rewrite H.
Qed.

Lemma conserved_run statements s terminated numErrors0 tables bar args schedule :
  conserved statements
    (run schedule (start statements s terminated numErrors0 tables bar args)).
Proof.
  apply run_invariant; [|apply conserved_step].
  unfold conserved. simpl.
  assert (holding ((fun arg : Arg => (arg, @AtRange Task)) <$> args) = []) as ->
    by (induction args; simpl; auto).
  done.
Qed.

(** *** Runs that nothing stops *)

Lemma latched_step σ a : (latched (history σ) <= latched (history (step σ a)))%nat.
Proof.
  destruct (history_step σ a) as [-> | (w & arg & p & e & _ & _ & -> & _)]; [done|].
  unfold latched. rewrite count_snoc. lia.
Qed.

Lemma unstopped_step σ a :
  a <> Signal -> latched (history (step σ a)) = 0%nat ->
  unstopped σ -> unstopped (step σ a).
Proof.
  intros Hsig Hlat (Hterm & Hfatal & Hdrop & Hret). unfold unstopped.
  assert (mustStop σ = false) as Hgo.
  { unfold mustStop. rewrite Hterm, Hfatal. done. }
  revert Hlat.
  step_cases σ a w Hw; try done; try congruence;
    rewrite ?dropped_snoc, ?Hdrop; unfold latched; rewrite ?count_snoc; simpl;
    intros Hlat; try lia;
    (split; [done|]; split; [done|]; split; [done|]);
    intros v arg';
    (destruct (decide (w = v)) as [->|Hne];
     [ rewrite list_lookup_insert_eq by (by eapply lookup_lt_Some)
     | rewrite list_lookup_insert_ne by done ]);
    try done; try (intros Hv; specialize (Hret _ _ Hv); congruence).
Qed.

Lemma unstopped_run statements s numErrors0 tables bar args schedule :
  let σ := run schedule (start statements s false numErrors0 tables bar args) in
  Signal ∉ schedule -> latched (history σ) = 0%nat -> unstopped σ.
Proof.
  induction schedule as [|a schedule IH] using rev_ind; cbv zeta.
  - intros _ _. repeat split; try done.
    intros w arg [? [[= -> ?] _]]%list_lookup_fmap_Some.
  - rewrite run_snoc. intros Hsig Hlat.
    apply unstopped_step; [set_solver | done |].
    apply IH; [set_solver|].
    pose proof (latched_step (run schedule (start statements s false numErrors0 tables bar args)) a).
    lia.
Qed.

(** *** The pool of one worker *)

Lemma in_order_step statements σ a : in_order statements σ -> in_order statements (step σ a).
Proof.
  intros (arg & p & Hwk & Heq & Hdrop). unfold in_order.
  destruct a as [|[|w]]; simpl; rewrite ?Hwk; simpl; [by eauto | | by eauto].
  assert (p = Returned \/ p <> Returned) as [->|Hp]
    by (destruct p; auto); [by eauto 6|].
  assert (dropped (history σ) = []) as Hnone.
  { destruct (dropped (history σ)); [done|]. by destruct Hp; apply Hdrop. }
  rewrite Hnone in Heq. clear Hdrop.
  destruct p; simpl; try done.
  - destruct (tasks σ) as [|t l] eqn:Htasks; simpl; rewrite Hwk, Hnone, ?Htasks; simpl;
      eexists _, _; (split; [done|]); split; done.
  - destruct (mustStop σ); simpl; rewrite Hwk, dropped_snoc, attempted_snoc, Hnone; simpl;
      eexists _, _; (split; [done|]); rewrite ?app_nil_r; split; done.
  - destruct (work (sys σ) statement arg) as [s' [e|]]; simpl;
      rewrite Hwk, dropped_snoc, attempted_snoc, Hnone; simpl;
      eexists _, _; (split; [done|]); rewrite ?app_nil_r, <- ?app_assoc; split; done.
  - destruct onErrorContinue; simpl; rewrite Hwk, dropped_snoc, attempted_snoc, Hnone; simpl;
      eexists _, _; (split; [done|]); rewrite ?app_nil_r; split; done.
  - rewrite Hwk, dropped_snoc, attempted_snoc, Hnone; simpl.
    eexists _, _; (split; [done|]); rewrite ?app_nil_r; split; done.
  - rewrite Hwk, dropped_snoc, attempted_snoc, Hnone; simpl.
    eexists _, _; (split; [done|]); rewrite ?app_nil_r; split; done.
Qed.

Lemma in_order_run statements s terminated numErrors0 tables bar arg schedule :
  in_order statements
    (run schedule (start statements s terminated numErrors0 tables bar [arg])).
Proof.
  apply run_invariant; [|apply in_order_step].
  exists arg, AtRange. by repeat split.
Qed.

(** *** The units of work, replayed *)

Lemma replay_snoc arg s statements statement :
  replay work arg s (statements ++ [statement]) =
  let '(results, s1) := replay work arg s statements in
  let '(s2, err) := work s1 statement arg in
  (results ++ [(statement, err)], s2).
Proof.
  revert s. induction statements as [|t l IH]; intros s; simpl.
  - by destruct (work s statement arg).
  - destruct (work s t arg) as [s' e]. rewrite IH.
    destruct (replay work arg s' l) as [results s1].
    by destruct (work s1 statement arg).
Qed.

Lemma replay_cons arg s statement statements :
  replay work arg s (statement :: statements) =
  let '(s1, err) := work s statement arg in
  let '(results, s2) := replay work arg s1 statements in
  ((statement, err) :: results, s2).
Proof. reflexivity. Qed.

Lemma replay_fst arg s statements : (replay work arg s statements).1.*1 = statements.
Proof.
  revert s. induction statements as [|t l IH]; intros s; simpl; [done|].
  destruct (work s t arg) as [s' e]. specialize (IH s').
  destruct (replay work arg s' l). simpl in *. by f_equal.
Qed.

Lemma replayed_step arg s0 σ a : replayed arg s0 σ -> replayed arg s0 (step σ a).
Proof.
  intros [Hargs Hrep]. unfold Pool.replayed.
  step_cases σ a w Hw; try done;
    pose proof (Forall_lookup_1 _ _ _ _ Hargs Hw) as Harg; simpl in Harg; subst;
    rewrite ?attempted_snoc, ?attempts_snoc; simpl; rewrite ?app_nil_r;
    (split; [by apply Forall_insert|]); try done.
  - rewrite replay_snoc, Hrep, Hwork. done.
  - rewrite replay_snoc, Hrep, Hwork. done.
Qed.

Lemma replayed_run statements s terminated numErrors0 tables bar arg n schedule :
  replayed arg s
    (run schedule (start statements s terminated numErrors0 tables bar (replicate n arg))).
Proof.
  apply run_invariant; [|apply replayed_step]. split; [|done]. simpl.
  apply Forall_fmap, Forall_forall. by intros ? ->%elem_of_replicate_inv.
Qed.

(** *** Every run can be completed *)

(** A step of a worker that has not returned brings it closer to its
    return, and leaves no more statements in the channel. *)
Lemma worker_progress σ w arg p :
  workers σ !! w = Some (arg, p) -> p <> Returned ->
  exists p', workers (step σ (Step w)) !! w = Some (arg, p') /\
    (6 * length (tasks (step σ (Step w))) + rank p' < 6 * length (tasks σ) + rank p)%nat.
Proof.
  intros Hw Hp. pose proof (lookup_lt_Some _ _ _ Hw) as Hlt. simpl. rewrite Hw.
  destruct p; simpl; try done.
  - destruct (tasks σ) eqn:Htasks; simpl; rewrite list_lookup_insert_eq by done;
      eexists; (split; [done|]); rewrite ?Htasks; simpl; lia.
  - destruct (mustStop σ); simpl; rewrite list_lookup_insert_eq by done;
      eexists; (split; [done|]); simpl; lia.
  - destruct (work (sys σ) statement arg) as [s' [e|]]; simpl;
      rewrite list_lookup_insert_eq by done; eexists; (split; [done|]); simpl; lia.
  - destruct onErrorContinue; simpl; rewrite list_lookup_insert_eq by done;
      eexists; (split; [done|]); simpl; lia.
  - rewrite list_lookup_insert_eq by done. eexists; (split; [done|]); simpl; lia.
  - rewrite list_lookup_insert_eq by done. eexists; (split; [done|]); simpl; lia.
Qed.

Lemma length_tasks_step σ a : (length (tasks (step σ a)) <= length (tasks σ))%nat.
Proof. destruct (tasks_step σ a) as [k ->]. rewrite length_app. lia. Qed.

Lemma length_tasks_run schedule σ : (length (tasks (run schedule σ)) <= length (tasks σ))%nat.
Proof.
  induction schedule as [|a schedule IH] using rev_ind; [done|].
  rewrite run_snoc. pose proof (length_tasks_step (run schedule σ) a). lia.
Qed.

Lemma length_workers_run schedule σ : length (workers (run schedule σ)) = length (workers σ).
Proof.
  induction schedule as [|a schedule IH] using rev_ind; [done|].
  by rewrite run_snoc, length_workers_step.
Qed.

Lemma Returned_run schedule σ w arg :
  workers σ !! w = Some (arg, Returned) ->
  workers (run schedule σ) !! w = Some (arg, Returned).
Proof.
  intros H. induction schedule as [|a schedule IH] using rev_ind; [done|].
  rewrite run_snoc. by apply Returned_step.
Qed.

(** Left to run alone for long enough, a worker returns. *)
Lemma worker_returns n : forall σ w arg p,
  workers σ !! w = Some (arg, p) ->
  (6 * length (tasks σ) + rank p <= n)%nat ->
  workers (run (repeat (Step w) n) σ) !! w = Some (arg, Returned).
Proof.
  induction n as [|n IH]; intros σ w arg p Hw Hn.
  - destruct p; simpl in Hn; try lia. done.
  - simpl repeat. change (run (Step w :: repeat (Step w) n) σ)
      with (run (repeat (Step w) n) (step σ (Step w))).
    assert (p = Returned \/ p <> Returned) as [->|Hp] by (destruct p; auto).
    + apply Returned_run. by apply Returned_step.
    + destruct (worker_progress σ w arg p Hw Hp) as (p' & Hw' & Hlt).
      eapply IH; [done | lia].
Qed.

Lemma finished_lookup σ :
  finished σ = true <->
  forall w arg p, workers σ !! w = Some (arg, p) -> p = Returned.
Proof.
  unfold finished. rewrite forallb_forall. split.
  - intros H w arg p Hw. apply list_elem_of_lookup_2, list_elem_of_In, H in Hw.
    by destruct p.
  - intros H [arg p] [w Hw]%list_elem_of_In%list_elem_of_lookup_1.
    by rewrite (H _ _ _ Hw).
Qed.

Lemma drain_returns n ws : forall σ w,
  (length (tasks σ) <= n)%nat -> w ∈ ws ->
  forall arg p, workers σ !! w = Some (arg, p) ->
  workers (run (flat_map (fun w => repeat (Step w) (6 * n + 6)) ws) σ) !! w
  = Some (arg, Returned).
Proof.
  induction ws as [|v ws IH]; intros σ w Hn Hin arg p Hw; [by apply elem_of_nil in Hin|].
  simpl flat_map. rewrite run_app.
  set (σ1 := run (repeat (Step v) (6 * n + 6)) σ).
  assert (length (tasks σ1) <= n)%nat as Hn1.
  { pose proof (length_tasks_run (repeat (Step v) (6 * n + 6)) σ). fold σ1 in H. lia. }
  destruct (decide (w = v)) as [->|Hne].
  - apply Returned_run. subst σ1. eapply worker_returns; [done|].
    assert (rank p <= 6)%nat by (destruct p; simpl; lia). lia.
  - apply elem_of_cons in Hin as [?|Hin]; [done|].
    assert (exists p1, workers σ1 !! w = Some (arg, p1)) as [p1 Hw1].
    { subst σ1. clear -Hw. induction (repeat (Step v) (6 * n + 6)) as [|a l IHl] using rev_ind.
      - eauto.
      - rewrite run_snoc. destruct IHl as [p1 H1].
        destruct a as [|u]; simpl; [eauto|].
        destruct (workers (run l σ) !! u) as [[arg' p']|] eqn:Hu; [|eauto].
        destruct (decide (u = w)) as [->|Hne].
        + rewrite H1 in Hu. injection Hu as <- <-.
          assert (p1 = Returned \/ p1 <> Returned) as [->|Hp] by (destruct p1; auto);
            [eauto|].
          destruct (worker_progress (run l σ) w arg p1 H1 Hp) as (p2 & H2 & _).
          simpl in H2. rewrite H1 in H2. eauto.
        + exists p1. rewrite <- H1.
          destruct p'; simpl;
            repeat match goal with |- context [match ?x with _ => _ end] => destruct x end;
            simpl; try done; by rewrite list_lookup_insert_ne. }
    by eapply IH.
Qed.

(** From wherever a schedule has led, [drain] completes the run: the
    workers can always be brought to their [return]. *)
Lemma drain_finished σ : finished (run (drain σ) σ) = true.
Proof.
  apply finished_lookup. intros w arg p Hw.
  pose proof (lookup_lt_Some _ _ _ Hw) as Hlt. rewrite length_workers_run in Hlt.
  destruct (lookup_lt_is_Some_2 (workers σ) w Hlt) as [[arg0 p0] Hw0].
  assert (w ∈ seq 0 (length (workers σ))) as Hin by (apply elem_of_seq; lia).
  unfold drain in Hw.
  rewrite (drain_returns (length (tasks σ)) _ σ w (le_n _) Hin arg0 p0 Hw0) in Hw.
  by injection Hw as _ <-.
Qed.

(** *** One worker, errors fatal *)

Lemma first_failure_step σ a :
  onErrorContinue = false -> first_failure σ -> first_failure (step σ a).
Proof.
  intros Hcont (arg & p & Hwk & HI). unfold first_failure.
  destruct a as [|[|w]]; simpl; rewrite ?Hwk; simpl; [by eauto | | by eauto].
  destruct p; simpl.
  - destruct (tasks σ) as [|t l] eqn:Htasks; simpl; rewrite Hwk; simpl;
      eexists _, _; (split; [done|]); by destruct (fatalErr σ).
  - unfold mustStop. destruct (fatalErr σ) as [e|] eqn:Hfatal.
    + rewrite bool_decide_eq_true_2, orb_true_r by eauto. simpl. rewrite Hwk, ?Hfatal.
      rewrite attempts_snoc. simpl. rewrite app_nil_r.
      eexists _, _; (split; [done|]); done.
    + destruct (wasTerminated σ || _); simpl; rewrite Hwk, ?Hfatal, attempts_snoc; simpl;
        rewrite app_nil_r; eexists _, _; (split; [done|]); done.
  - destruct (fatalErr σ) as [e|] eqn:Hfatal; [by destruct HI|].
    destruct (work (sys σ) statement arg) as [s' [e|]]; simpl;
      rewrite Hwk, ?Hfatal, attempts_snoc; simpl; eexists _, _; (split; [done|]).
    + by eexists.
    + apply Forall_app. split; [done|]. by constructor.
  - destruct (fatalErr σ) as [e|] eqn:Hfatal; [by destruct HI|].
    rewrite Hcont. simpl. rewrite Hwk, attempts_snoc. simpl. rewrite app_nil_r.
    eexists _, _; (split; [done|]). split; [|done]. destruct HI as (before & ? & ?). eauto.
  - destruct (fatalErr σ) as [e|] eqn:Hfatal; [by destruct HI|].
    rewrite Hwk, ?Hfatal, attempts_snoc. simpl. rewrite app_nil_r.
    eexists _, _; (split; [done|]). done.
  - rewrite Hwk, attempts_snoc. simpl. rewrite app_nil_r.
    eexists _, _; (split; [done|]). by destruct (fatalErr σ).
  - eexists _, _; (split; [done|]). done.
Qed.

Lemma first_failure_run statements s terminated numErrors0 tables bar arg schedule :
  onErrorContinue = false ->
  first_failure (run schedule (start statements s terminated numErrors0 tables bar [arg])).
Proof.
  intros Hcont. apply run_invariant; [|intros; by apply first_failure_step].
  exists arg, AtRange. split; [done|]. simpl. constructor.
Qed.

Section FromStart.
Variables (statements : list Task) (s : Sys) (terminated : bool) (numErrors0 : Z)
          (tables : gset string) (bar : nat) (args : list Arg).
Let σ0 := start statements s terminated numErrors0 tables bar args.








End FromStart.

(** *** Complete runs *)

(** When nothing stopped the pool and a worker has returned, every
    statement has been attempted, once. *)
Lemma attempted_all statements σ :
  conserved statements σ -> unstopped σ -> finished σ = true -> workers σ <> [] ->
  attempted (history σ) ≡ₚ statements.
Proof.
  intros Hcons (_ & _ & Hdrop & Hret) Hfin Hsome.
  unfold conserved in Hcons. rewrite Hdrop, holding_finished in Hcons by done.
  assert (exists arg p, workers σ !! 0%nat = Some (arg, p)) as (arg & p & Hwk).
  { destruct (workers σ) as [|[arg p] l]; [done | by exists arg, p]. }
  pose proof (proj1 (finished_lookup σ) Hfin _ _ _ Hwk) as ->.
  rewrite (Hret _ _ Hwk) in Hcons.
  simpl in Hcons. by rewrite app_nil_r in Hcons.
Qed.


Lemma failures_none h :
  Forall succeeded (attempts h) -> failures h = 0%nat.
Proof.
  unfold failures. induction 1 as [|[t r] l Hx _ IH]; simpl; [done|].
  unfold succeeded in Hx. simpl in Hx. subst r. done.
Qed.

(** *** One [Increment] for each attempt *)

Lemma increment_inv_step σ a : increment_inv σ -> increment_inv (step σ a).
Proof.
  intros HI v arg p.
  step_cases σ a w Hw; try (by apply HI);
    rewrite ?events_of_snoc;
    (destruct (decide (w = v)) as [->|Hne];
     [ rewrite list_lookup_insert_eq by (by eapply lookup_lt_Some);
       rewrite ?count_snoc; pose proof (HI _ _ _ Hw) as Hv; intros [= <- <-];
       unfold pending in *; simpl in *; lia
     | rewrite list_lookup_insert_ne by done; rewrite ?app_nil_r; by apply HI ]).
Qed.

Lemma increment_inv_run statements s terminated numErrors0 tables bar args schedule :
  increment_inv (run schedule (start statements s terminated numErrors0 tables bar args)).
Proof.
  apply run_invariant; [|apply increment_inv_step].
  intros w arg p [? [[= -> ->] _]]%list_lookup_fmap_Some. done.
Qed.

(** *** The discipline of the flags *)


(** *** Further invariants *)

(** A pool without workers does nothing. *)
Lemma step_no_workers σ a :
  workers σ = [] ->
  workers (step σ a) = [] /\ history (step σ a) = history σ /\
  numErrors (step σ a) = numErrors σ /\ fatalErr (step σ a) = fatalErr σ /\
  sys (step σ a) = sys σ /\ tasks (step σ a) = tasks σ /\
  progressBar (step σ a) = progressBar σ /\
  errorTablesMetadata (step σ a) = errorTablesMetadata σ.
Proof. intros H. destruct a as [|w]; simpl; rewrite ?H; done. Qed.

Lemma run_no_workers schedule σ :
  workers σ = [] ->
  workers (run schedule σ) = [] /\ history (run schedule σ) = history σ /\
  numErrors (run schedule σ) = numErrors σ /\ fatalErr (run schedule σ) = fatalErr σ /\
  sys (run schedule σ) = sys σ /\ tasks (run schedule σ) = tasks σ /\
  progressBar (run schedule σ) = progressBar σ /\
  errorTablesMetadata (run schedule σ) = errorTablesMetadata σ.
Proof.
  intros H. induction schedule as [|a schedule IH] using rev_ind; [done|].
  rewrite run_snoc. destruct IH as (Hw & H1 & H2 & H3 & H4 & H5 & H6 & H7).
  destruct (step_no_workers (run schedule σ) a Hw) as (? & G1 & G2 & G3 & G4 & G5 & G6 & G7).
  repeat split; congruence.
Qed.






(** [fatalErr] holds the error that was latched last. *)
Lemma latched_errors_snoc h (x : nat * event Task) :
  latched_errors (h ++ [x]) = latched_errors h ++ option_list (latched_of x).
Proof. unfold latched_errors. rewrite omap_app. simpl. by destruct (latched_of x). Qed.

Lemma fatalErr_last_step σ a :
  fatalErr σ = last (latched_errors (history σ)) ->
  fatalErr (step σ a) = last (latched_errors (history (step σ a))).
Proof.
  intros HI. step_cases σ a w Hw; try done;
    rewrite latched_errors_snoc; simpl; rewrite ?app_nil_r, ?last_snoc; done.
Qed.

(** The keys of [errorTablesMetadata]. *)
Lemma inserted_snoc h (x : nat * event Task) :
  inserted (h ++ [x]) = inserted h ++ option_list (inserted_of x).
Proof. unfold inserted. rewrite omap_app. simpl. by destruct (inserted_of x). Qed.

Lemma failed_snoc h (x : nat * event Task) :
  failed (h ++ [x]) =
  failed h ++ match attempt_of x with Some (t, Some _) => [t] | _ => [] end.
Proof.
  unfold failed. rewrite attempts_snoc, List.filter_app, fmap_app.
  by destruct (attempt_of x) as [[? [?|]]|].
Qed.

Lemma flat_map_insert {A B} (f : A -> list B) (l : list A) i x y :
  l !! i = Some x -> flat_map f (<[i := y]> l) ++ f x ≡ₚ flat_map f l ++ f y.
Proof.
  revert i. induction l as [|z l IH]; intros [|i] H; simpl in *; try done.
  - injection H as ->.
    rewrite (Permutation_app_comm (f y) (flat_map f l)), <- app_assoc.
    rewrite (Permutation_app_comm (f y) (f x)), app_assoc.
    by rewrite (Permutation_app_comm (flat_map f l) (f x)).
  - rewrite <- !app_assoc. f_equiv. by apply IH.
Qed.

Lemma tables_inv_step tables σ a : tables_inv tables σ -> tables_inv tables (step σ a).
Proof.
  unfold Pool.tables_inv. intros Hset.
  step_cases σ a w Hw; try done;
    rewrite inserted_snoc; simpl; rewrite ?app_nil_r; try done.
  rewrite list_to_set_app_L, Hset. simpl. rewrite union_empty_r_L.
  rewrite (union_comm_L _ {[key statement]}). by rewrite union_assoc_L.
Qed.

Lemma recorded_step σ a : onErrorContinue = true -> recorded σ -> recorded (step σ a).
Proof.
  unfold Pool.recorded. intros Hc HI.
  step_cases σ a w Hw; try done; try congruence;
    rewrite ?inserted_snoc, ?failed_snoc; simpl; rewrite ?app_nil_r;
    match goal with
    | |- context [flat_map unrecorded (<[_ := ?y]> _)] =>
        pose proof (flat_map_insert unrecorded _ _ _ y Hw) as Hperm;
        unfold unrecorded in Hperm at 2 4; simpl in Hperm;
        rewrite ?app_nil_r in Hperm
    end;
    try (by rewrite Hperm).
  - rewrite Hperm, !fmap_app, HI, <- app_assoc. done.
  - apply Permutation_app_inv_r in Hperm. by rewrite Hperm.
  - rewrite HI, <- Hperm, fmap_app, <- !app_assoc. f_equiv. apply Permutation_app_comm.
Qed.

Lemma unrecording_step σ a : onErrorContinue = false -> unrecording σ -> unrecording (step σ a).
Proof.
  unfold Pool.unrecording. intros Hc [Hnone Hpcs].
  step_cases σ a w Hw; try done; try congruence;
    try (by (pose proof (Forall_lookup_1 _ _ _ _ Hpcs Hw) as Hp; simpl in Hp));
    rewrite ?inserted_snoc; simpl; rewrite ?app_nil_r;
    (split; [done | by apply Forall_insert]).
Qed.




Section FromStartMore.
Variables (statements : list Task) (s : Sys) (terminated : bool) (numErrors0 : Z)
          (tables : gset string) (bar : nat) (args : list Arg).
Let σ1 := start statements s terminated numErrors0 tables bar args.

Lemma flat_map_start {B} (f : Arg * pc Task -> list B) :
  (forall arg, f (arg, AtRange) = []) ->
  flat_map f ((fun arg : Arg => (arg, @AtRange Task)) <$> args) = [].
Proof. intros Hf. induction args as [|? ? IH]; simpl; [done|]. rewrite Hf. exact IH. Qed.

Lemma sum_start (f : Arg * pc Task -> nat) :
  (forall arg, f (arg, AtRange) = 0%nat) ->
  sum_list_with f ((fun arg : Arg => (arg, @AtRange Task)) <$> args) = 0%nat.
Proof. intros Hf. induction args as [|? ? IH]; simpl; [done|]. rewrite Hf. exact IH. Qed.

Lemma fatalErr_last_run schedule :
  fatalErr (run schedule σ1) = last (latched_errors (history (run schedule σ1))).
Proof. apply run_invariant; [done | apply fatalErr_last_step]. Qed.

Lemma tables_inv_run schedule : tables_inv tables (run schedule σ1).
Proof.
  apply run_invariant; [|apply tables_inv_step].
  unfold Pool.tables_inv. simpl. by rewrite union_empty_l_L.
Qed.

Lemma recorded_run schedule : onErrorContinue = true -> recorded (run schedule σ1).
Proof.
  intros Hc. apply run_invariant; [|intros; by apply recorded_step].
  unfold Pool.recorded. simpl. by rewrite flat_map_start.
Qed.

Lemma unrecording_run schedule : onErrorContinue = false -> unrecording (run schedule σ1).
Proof.
  intros Hc. apply run_invariant; [|intros; by apply unrecording_step].
  split; [done|]. simpl. apply Forall_fmap, Forall_true. done.
Qed.


End FromStartMore.
End PoolFacts.

(** ** The output file *)

Section FileFacts.
Implicit Types (content b : list Byte.byte) (off n i : nat).

Lemma ReadAt_pwrite content b off :
  ReadAt (pwrite content b off) (Z.of_nat off) (length b) = b.
Proof.
  unfold ReadAt, pwrite. rewrite Nat2Z.id.
  set (padded := content ++ replicate (off - length content) Byte.x00).
  assert (length (take off padded) = off) as Hlen.
  { rewrite length_take. subst padded. rewrite length_app, length_replicate. lia. }
  rewrite drop_app_length' by done. by rewrite take_app_length.
Qed.

Lemma pwrite_lookup_before content b off i :
  (i < off)%nat -> (i < length content)%nat -> pwrite content b off !! i = content !! i.
Proof.
  intros Hoff Hlen. unfold pwrite.
  rewrite lookup_app_l by (rewrite length_take, length_app, length_replicate; lia).
  rewrite lookup_take_lt by done. by rewrite lookup_app_l.
Qed.

Lemma pwrite_lookup_after content b off i :
  (off + length b <= i)%nat -> pwrite content b off !! i = content !! i.
Proof.
  intros Hoff. unfold pwrite.
  assert (length (take off (content ++ replicate (off - length content) Byte.x00)) = off)
    as Hlen by (rewrite length_take, length_app, length_replicate; lia).
  rewrite lookup_app_r by lia. rewrite lookup_app_r by lia.
  rewrite lookup_drop, Hlen. f_equal. lia.
Qed.

(** A write leaves the bytes that the file has outside the written region
    as they are. *)
Lemma pwrite_lookup_other content b off i :
  (i < off \/ off + length b <= i)%nat -> (i < length content)%nat ->
  pwrite content b off !! i = content !! i.
Proof.
  intros [H|H] Hlen; [by apply pwrite_lookup_before | by apply pwrite_lookup_after].
Qed.

Lemma ReadAt_lookup content off n i :
  ReadAt content (Z.of_nat off) n !! i
  = if decide (i < n)%nat then content !! (off + i)%nat else None.
Proof.
  unfold ReadAt. rewrite Nat2Z.id. case_decide.
  - by rewrite lookup_take_lt, lookup_drop.
  - by rewrite lookup_take_ge by lia.
Qed.

(** What was read in full from a region is read again after a write to a
    region that has no byte in common with it. *)
Lemma ReadAt_pwrite_other content b off off' data :
  ReadAt content (Z.of_nat off') (length data) = data ->
  (off' + length data <= off \/ off + length b <= off')%nat ->
  ReadAt (pwrite content b off) (Z.of_nat off') (length data) = data.
Proof.
  intros Hread Hdisj. rewrite <- Hread at 2. apply list_eq. intros i.
  rewrite !ReadAt_lookup. case_decide as Hi; [|done].
  assert (off' + i < length content)%nat as Hin.
  { apply lookup_lt_is_Some. rewrite <- (decide_True (P := (i < length data)%nat)
      (content !! (off' + i)%nat) None Hi), <- ReadAt_lookup, Hread.
    by apply lookup_lt_is_Some. }
  apply pwrite_lookup_other; lia.
Qed.
End FileFacts.

(** ** What the writer does to the file *)

Section WriterFacts.
Implicit Types (content : list Byte.byte) (s t : StatementWithOffset)
               (l : list StatementWithOffset).

Lemma disjoint_sym s t : disjoint s t -> disjoint t s.
Proof. unfold disjoint. tauto. Qed.

Lemma nonoverlapping_Permutation l l' : l ≡ₚ l' -> nonoverlapping l -> nonoverlapping l'.
Proof.
  induction 1 as [|x l l' Hp IH|x y l|l l' l'' _ IH1 _ IH2]; simpl.
  - done.
  - intros [Hx Hl]. split; [by eapply Permutation_Forall | by apply IH].
  - intros [[Hyx Hy]%Forall_cons [Hx Hl]]. repeat split; try done.
    constructor; [by apply disjoint_sym | done].
  - auto.
Qed.

Lemma nonoverlapping_snoc l t :
  nonoverlapping (l ++ [t]) -> nonoverlapping l /\ Forall (fun s => disjoint s t) l.
Proof.
  induction l as [|s l IH]; simpl; [done|].
  intros [[Hl Ht%Forall_inv]%Forall_app Hrest]. destruct (IH Hrest) as [? ?].
  repeat split; try done. by constructor.
Qed.


Lemma Write_openFile content t :
  0 <= Offset t ->
  Write content t openFile =
  (match text t with
   | [] => content
   | _ => pwrite content (text t) (Z.to_nat (Offset t))
   end, None).
Proof.
  intros H. unfold Write, WriteAt.
  destruct (Z.ltb_spec (Offset t) 0); [lia|]. by destruct (text t).
Qed.


(** On the open file every write at an offset that is not negative
    succeeds. *)
Lemma replay_openFile content l :
  Forall (fun t => 0 <= Offset t) l ->
  (Pool.replay Write openFile content l).1 = (fun t => (t, None)) <$> l.
Proof.
  revert content. induction l as [|t l IH]; intros content; [done|].
  intros [Ht Hl]%Forall_cons. rewrite replay_cons, (Write_openFile _ _ Ht).
  specialize (IH (match text t with
                  | [] => content
                  | _ => pwrite content (text t) (Z.to_nat (Offset t))
                  end) Hl).
  destruct (Pool.replay Write openFile _ l). simpl in *. by rewrite IH.
Qed.

(** What one write leaves of the text of another statement. *)
Lemma Write_other content s t :
  0 <= Offset s -> 0 <= Offset t -> disjoint s t ->
  ReadAt content (Offset s) (length (text s)) = text s ->
  ReadAt (Write content t openFile).1 (Offset s) (length (text s)) = text s.
Proof.
  intros Hs Ht Hd Hread. rewrite (Write_openFile _ _ Ht). simpl.
  destruct (text t) as [|b bs] eqn:Htext; [done|]. rewrite <- Htext.
  destruct (text s) as [|c cs] eqn:Hstext; [done|]. rewrite <- Hstext in *.
  unfold disjoint, textLength in Hd. rewrite Htext, Hstext in Hd. simpl in Hd.
  rewrite <- (Z2Nat.id (Offset s)) in * by done.
  apply ReadAt_pwrite_other; [done|].
  rewrite Htext, Hstext. simpl. lia.
Qed.

Lemma Write_same content t :
  0 <= Offset t ->
  ReadAt (Write content t openFile).1 (Offset t) (length (text t)) = text t.
Proof.
  intros Ht. rewrite (Write_openFile _ _ Ht). simpl.
  destruct (text t) as [|b bs] eqn:Htext; [done|]. rewrite <- Htext.
  rewrite <- (Z2Nat.id (Offset t)) at 2 by done. apply ReadAt_pwrite.
Qed.

(** After the writes of statements that do not overlap, in whatever
    order, the file holds the text of each at its offset. *)
Lemma replay_ReadAt content l :
  Forall (fun t => 0 <= Offset t) l -> nonoverlapping l ->
  forall t, t ∈ l ->
  ReadAt (Pool.replay Write openFile content l).2 (Offset t) (length (text t)) = text t.
Proof.
  induction l as [|u l IH] using rev_ind; intros Hoff Hno t Hin.
  - by apply elem_of_nil in Hin.
  - apply Forall_app in Hoff as [Hoff Hu%Forall_inv].
    apply nonoverlapping_snoc in Hno as [Hno Hdisj].
    rewrite replay_snoc.
    destruct (Pool.replay Write openFile content l) as [results c1] eqn:Hrep.
    simpl in IH.
    destruct (Write c1 u openFile) as [c2 err] eqn:Hw.
    change c2 with (c2, err).1. rewrite <- Hw. simpl.
    apply elem_of_app in Hin as [Hin | ->%list_elem_of_singleton].
    + apply Write_other; try done.
      * by eapply (proj1 (Forall_forall _ _) Hoff).
      * by eapply (proj1 (Forall_forall _ _) Hdisj).
      * by apply IH.
    + by apply Write_same.
Qed.
End WriterFacts.

(** ** The execution engine *)

Section ExecuteFacts.
Context {World : Type}.
Variable connectionPool_Exec : World -> string -> Z -> World * option error.
Variable connectionPool_NumConns : Z.
Variable connectionPool_ValidateConnNum : list Z -> Z.
Variable onErrorContinue : bool.

Abbreviation run_of :=
  (ExecuteStatements_run connectionPool_Exec connectionPool_NumConns
                         connectionPool_ValidateConnNum onErrorContinue).
Abbreviation return_of :=
  (ExecuteStatements connectionPool_Exec connectionPool_NumConns
                     connectionPool_ValidateConnNum onErrorContinue).

Lemma failures_le_attempts (h : list (nat * Pool.event StatementWithType)) :
  (Pool.failures h <= length (Pool.attempts h))%nat.
Proof. unfold Pool.failures. apply List.filter_length_le. Qed.

(** C3. In serial mode the statements are executed in the order of the
    input, one after the other on the validated connection, and all of
    them when nothing stops the engine.  When errors are not fatal the
    call returns the number of executions that failed (as an [int32]).
    When they are, either no execution failed and the call returns 0, or
    the execution that failed is the last one the engine attempted and
    the call ends in [gplog.Fatal] with its error. *)
Theorem ExecuteStatements_serial
    (statements : list StatementWithType) (whichConn : list Z) (world : World)
    (terminated : bool) (tables : gset string) (bar : nat)
    (schedule : list Pool.action) :
  let σ := run_of statements false whichConn world terminated tables bar schedule in
  let out := return_of statements false whichConn world terminated tables bar schedule in
  let h := Pool.history σ in
  let conn := connectionPool_ValidateConnNum whichConn in
  Pool.finished σ = true ->
  Pool.attempted h `prefix_of` statements /\
  Pool.replay (Exec connectionPool_Exec) conn world (Pool.attempted h)
    = (Pool.attempts h, Pool.sys σ) /\
  (terminated = false -> Pool.Signal ∉ schedule ->
   onErrorContinue = true \/ Pool.failures h = 0%nat ->
   Pool.attempted h = statements) /\
  if onErrorContinue then
    out = Some (Return (wrap32 (Z.of_nat (Pool.failures h)))) /\
    (Z.of_nat (length statements) < 2 ^ 31 ->
     wrap32 (Z.of_nat (Pool.failures h)) = Z.of_nat (Pool.failures h))
  else
    (Forall Pool.succeeded (Pool.attempts h) /\ out = Some (Return 0)) \/
    (exists before statement e,
        Pool.attempts h = before ++ [(statement, Some e)] /\
        Forall Pool.succeeded before /\ out = Some (Fatal e)).
Proof.
  cbv zeta. unfold ExecuteStatements, ExecuteStatements_run, connections. simpl negb. cbv iota.
  set (conn := connectionPool_ValidateConnNum whichConn).
  set (σ0 := Pool.start statements world terminated 0 tables bar [conn]).
  set (σ := Pool.run _ _ _ _ schedule σ0).
  intros Hfin. unfold Pool.outcome_of. rewrite Hfin.
  destruct (in_order_run (Exec connectionPool_Exec) statementKey onErrorContinue false
              statements world terminated 0 tables bar conn schedule)
    as (arg & p & Hwk & Horder & Hdrop). fold σ0 σ in Hwk, Horder, Hdrop.
  assert (p = Pool.Returned) as ->.
  { apply (proj1 (finished_lookup σ) Hfin 0%nat arg). by rewrite Hwk. }
  pose proof (count_inv_run (Exec connectionPool_Exec) statementKey onErrorContinue false
                bar 0 statements world terminated tables [conn] schedule ltac:(lia))
    as (Hbar & Hatt & Hnum & Hfail & Hlat & Hcnt & Hfatal & _).
  fold σ0 σ in Hbar, Hatt, Hnum, Hfail, Hlat, Hcnt, Hfatal.
  rewrite Hwk in Hatt, Hfail. simpl in Hatt, Hfail.
  split; [by eexists; rewrite <- Horder|].
  split; [apply (replayed_run (Exec connectionPool_Exec) statementKey onErrorContinue false
                   statements world terminated 0 tables bar conn 1 schedule)|].
  split.
  - intros -> Hsig Hok.
    assert (Pool.latched (Pool.history σ) = 0%nat) as Hl by (destruct Hok; [auto | lia]).
    destruct (unstopped_run (Exec connectionPool_Exec) statementKey onErrorContinue false
                statements world 0 tables bar [conn] schedule Hsig Hl)
      as (_ & _ & Hnone & Hret). fold σ0 σ in Hnone, Hret.
    rewrite Hnone, (Hret 0%nat arg) in Horder by (by rewrite Hwk).
    simpl in Horder. by rewrite !app_nil_r in Horder.
  - destruct onErrorContinue eqn:Hcont.
    + unfold Pool.result. rewrite Hfatal, Hnum by auto. rewrite Hlat in Hfail by done.
      split; [do 3 f_equal; lia|]. intros Hlen. apply wrap32_small.
      pose proof (failures_le_attempts (Pool.history σ)).
      assert (length (Pool.attempts (Pool.history σ)) <= length statements)%nat.
      { rewrite <- Horder, !length_app. unfold Pool.attempted. rewrite length_fmap. lia. }
      lia.
    + destruct (first_failure_run (Exec connectionPool_Exec) statementKey false false
                  statements world terminated 0 tables bar conn schedule eq_refl)
        as (arg' & p' & Hwk' & Hff). fold σ0 σ in Hwk', Hff.
      unfold Pool.result. rewrite Hnum, Hcnt by done.
      destruct (Pool.fatalErr σ) as [e|].
      * right. destruct Hff as [(before & t & Hb & Hs) _]. by exists before, t, e.
      * left. rewrite Hwk in Hwk'. injection Hwk' as <- <-. done.
Qed.
End ExecuteFacts.


(** C5, as the code has it. [Increment] is called once after every attempt,
    whatever its result: at any moment the attempts of a worker are its
    increments, and one more while it stands between the unit of work and
    the call; the bar has received one increment for each [Increment] of
    the history, and in a complete run one for each attempt. *)
Theorem Increment_after_every_attempt
    (World : Type) (connectionPool_Exec : World -> string -> Z -> World * option error)
    (connectionPool_NumConns : Z) (connectionPool_ValidateConnNum : list Z -> Z)
    (onErrorContinue : bool) (statements : list StatementWithType)
    (executeInParallel : bool) (whichConn : list Z) (world : World)
    (terminated : bool) (tables : gset string) (bar : nat)
    (schedule : list Pool.action) :
  let σ := ExecuteStatements_run connectionPool_Exec connectionPool_NumConns
             connectionPool_ValidateConnNum onErrorContinue statements executeInParallel
             whichConn world terminated tables bar schedule in
  let h := Pool.history σ in
  Pool.progressBar σ = (bar + Pool.increments h)%nat /\
  (forall w arg p, Pool.workers σ !! w = Some (arg, p) ->
     length (List.filter Pool.is_attempt (Pool.events_of w h))
     = (length (List.filter Pool.is_increment (Pool.events_of w h)) + Pool.pending (arg, p))%nat) /\
  (Pool.finished σ = true -> Pool.progressBar σ = (bar + length (Pool.attempts h))%nat).
Proof.
  cbv zeta. unfold ExecuteStatements_run.
  set (σ := Pool.run _ _ _ _ schedule _).
  pose proof (count_inv_run (Exec connectionPool_Exec) statementKey onErrorContinue
                executeInParallel bar 0 statements world terminated tables
                (connections connectionPool_NumConns connectionPool_ValidateConnNum
                             executeInParallel whichConn) schedule ltac:(lia))
    as (Hbar & Hatt & _). fold σ in Hbar, Hatt.
  split; [done|]. split; [apply increment_inv_run|].
  intros Hfin. rewrite (sum_list_with_finished Pool.pending) in Hatt by done. lia.
Qed.

(** ** The file writer *)

Section WriteFacts.
Variable connectionPool_NumConns : Z.
Variable onErrorContinue : bool.
Variable os_OpenFile_error : string -> option error.

Lemma map_const {A B} (f : B) (l : list A) : map (fun _ => f) l = replicate (length l) f.
Proof. induction l as [|? ? IH]; simpl; [done | by rewrite IH]. Qed.

Lemma writers_replicate executeInParallel f :
  exists n, writers connectionPool_NumConns executeInParallel f = replicate n f /\
    (executeInParallel = false \/ 0 < connectionPool_NumConns -> n <> 0%nat).
Proof.
  unfold writers. destruct executeInParallel; simpl.
  - exists (Z.to_nat connectionPool_NumConns). split; [|lia].
    by rewrite map_const, length_seqZ.
  - exists 1%nat. by split.
Qed.
Abbreviation wrun := (WriteStatements_run connectionPool_NumConns onErrorContinue os_OpenFile_error).
Abbreviation wreturn := (WriteStatements connectionPool_NumConns onErrorContinue os_OpenFile_error).


Lemma Write_lookup_other content s t i :
  0 <= Offset t -> disjoint s t ->
  Offset s <= Z.of_nat i < Offset s + textLength s -> (i < length content)%nat ->
  (Write content t openFile).1 !! i = content !! i.
Proof.
  intros Ht Hd Hi Hlen. rewrite (Write_openFile _ _ Ht). simpl.
  destruct (text t) as [|b bs] eqn:Htext; [done|]. rewrite <- Htext.
  apply pwrite_lookup_other; [|done].
  unfold disjoint, textLength in *. rewrite Htext in *. simpl in *. lia.
Qed.

(** C9. When the file is opened, the statements do not overlap, their
    offsets are not negative, and nothing stops the pool, which has a
    worker: a complete run attempts each statement once, every write
    succeeds, the file is what the writes make of it one after the other
    in the order of the history, and it holds the text of each statement
    at the statement's offset; the call returns 0.  A single write leaves
    the bytes of the region of any other statement as they are. *)
Theorem WriteStatements_offsets
    (statements : list StatementWithOffset) (executeInParallel : bool)
    (filename : string) (content : list Byte.byte)
    (tables : gset string) (bar : nat) (schedule : list Pool.action)
    (σ : Pool.state StatementWithOffset (list Byte.byte) File) :
  os_OpenFile_error filename = None ->
  nonoverlapping statements ->
  Forall (fun t => 0 <= Offset t) statements ->
  Pool.Signal ∉ schedule ->
  executeInParallel = false \/ 0 < connectionPool_NumConns ->
  wrun statements executeInParallel filename content false tables bar schedule = inr σ ->
  Pool.finished σ = true ->
  let h := Pool.history σ in
  Pool.attempted h ≡ₚ statements /\
  Pool.attempts h = (fun t => (t, None)) <$> Pool.attempted h /\
  Pool.sys σ = (Pool.replay Write openFile content (Pool.attempted h)).2 /\
  (forall t, t ∈ statements ->
     ReadAt (Pool.sys σ) (Offset t) (length (text t)) = text t) /\
  (forall c s t i, s ∈ statements -> t ∈ statements -> disjoint s t ->
     Offset s <= Z.of_nat i < Offset s + textLength s -> (i < length c)%nat ->
     (Write c t openFile).1 !! i = c !! i) /\
  wreturn statements executeInParallel filename content false tables bar schedule
  = Some (Return 0).
Proof.
  intros Hopen Hno Hoff Hsig Hworker Hrun Hfin. cbv zeta.
  unfold WriteStatements. rewrite Hrun.
  unfold WriteStatements_run, os_OpenFile in Hrun. rewrite Hopen in Hrun.
  destruct (writers_replicate executeInParallel openFile) as (n & Hw & Hn).
  rewrite Hw in Hrun. injection Hrun as Hσ.
  destruct (replayed_run Write offsetKey onErrorContinue executeInParallel statements content
              false 0 tables bar openFile n schedule) as [_ Hrep]. rewrite Hσ in Hrep.
  pose proof (conserved_run Write offsetKey onErrorContinue executeInParallel statements
                content false 0 tables bar (replicate n openFile) schedule) as Hcons.
  rewrite Hσ in Hcons.
  pose proof (count_inv_run Write offsetKey onErrorContinue executeInParallel bar 0 statements
                content false tables (replicate n openFile) schedule ltac:(lia))
    as (_ & _ & Hnum & Hfail & _ & _ & Hfatal & _).
  rewrite Hσ in Hnum, Hfail, Hfatal.
  (* the attempted statements are input statements, so their writes succeed *)
  assert (Forall (fun t => 0 <= Offset t) (Pool.attempted (Pool.history σ))) as Hoff'.
  { apply Forall_forall. intros t Ht. apply (proj1 (Forall_forall _ _) Hoff).
    rewrite <- Hcons. apply elem_of_app. by left. }
  pose proof (replay_openFile content _ Hoff') as Hok. rewrite Hrep in Hok. simpl in Hok.
  assert (Pool.failures (Pool.history σ) = 0%nat) as Hzero.
  { apply failures_none. rewrite Hok. by apply Forall_fmap, Forall_true. }
  assert (Pool.latched (Pool.history σ) = 0%nat) as Hlat by lia.
  assert (Pool.counted (Pool.history σ) = 0%nat) as Hcnt by lia.
  assert (Pool.attempted (Pool.history σ) ≡ₚ statements) as Hperm.
  { apply attempted_all; try done.
    - rewrite <- Hσ. apply unstopped_run; [done | by rewrite Hσ].
    - intros Hnil. apply (f_equal length) in Hnil.
      rewrite <- Hσ, length_workers_run in Hnil. simpl in Hnil.
      rewrite length_fmap, length_replicate in Hnil. by apply Hn. }
  split; [done|]. split; [done|]. split; [by rewrite Hrep|]. split; [|split].
  - intros t Ht. replace (Pool.sys σ)
      with (Pool.replay Write openFile content (Pool.attempted (Pool.history σ))).2
      by (by rewrite Hrep).
    apply replay_ReadAt; [done | | by rewrite Hperm].
    by apply (nonoverlapping_Permutation statements).
  - intros c s t i _ Ht Hd Hi Hlen. apply (Write_lookup_other c s t i); try done.
    by apply (proj1 (Forall_forall _ _) Hoff).
  - unfold Pool.outcome_of, Pool.result. by rewrite Hfin, Hfatal, Hnum, Hcnt.
Qed.
End WriteFacts.

(** ** Every call can be brought to its end *)

(** X16. However far a schedule has brought [ExecuteStatements], the
    schedule [Pool.drain] lets every worker return, and the call ends: no
    worker waits for another, and a worker left to run returns within six
    steps for each statement of the channel, and six more. *)
Theorem ExecuteStatements_ends
    (World : Type) (connectionPool_Exec : World -> string -> Z -> World * option error)
    (connectionPool_NumConns : Z) (connectionPool_ValidateConnNum : list Z -> Z)
    (onErrorContinue : bool) (statements : list StatementWithType)
    (executeInParallel : bool) (whichConn : list Z) (world : World)
    (terminated : bool) (tables : gset string) (bar : nat)
    (schedule : list Pool.action) :
  let σ := ExecuteStatements_run connectionPool_Exec connectionPool_NumConns
             connectionPool_ValidateConnNum onErrorContinue statements executeInParallel
             whichConn world terminated tables bar schedule in
  is_Some (ExecuteStatements connectionPool_Exec connectionPool_NumConns
             connectionPool_ValidateConnNum onErrorContinue statements executeInParallel
             whichConn world terminated tables bar (schedule ++ Pool.drain σ)).
Proof.
  cbv zeta. unfold ExecuteStatements, ExecuteStatements_run, Pool.outcome_of.
  rewrite run_app, drain_finished. eauto.
Qed.

Theorem WriteStatements_ends
    (connectionPool_NumConns : Z) (onErrorContinue : bool)
    (os_OpenFile_error : string -> option error)
    (statements : list StatementWithOffset) (executeInParallel : bool)
    (filename : string) (content : list Byte.byte) (terminated : bool)
    (tables : gset string) (bar : nat) (schedule : list Pool.action) :
  match WriteStatements_run connectionPool_NumConns onErrorContinue os_OpenFile_error
          statements executeInParallel filename content terminated tables bar schedule with
  | inl e => True
  | inr σ =>
      is_Some (WriteStatements connectionPool_NumConns onErrorContinue os_OpenFile_error
                 statements executeInParallel filename content terminated tables bar
                 (schedule ++ Pool.drain σ))
  end.
Proof.
  unfold WriteStatements, WriteStatements_run, os_OpenFile, Pool.outcome_of.
  destruct (os_OpenFile_error filename) as [e|]; [destruct onErrorContinue; [|done]|];
    rewrite run_app, drain_finished; eauto.
Qed.

(** ** The keys of the failed objects *)

(** C10. The key of a failed object is its schema, a dot and its name, as
    they are.  The statements of schema [a.b], name [c] and of schema [a],
    name [b.c] are different objects with the same key [a.b.c]: when both
    fail under continue-on-error, in the execution engine as in the writer,
    two errors are counted and [errorTablesMetadata] has the one entry. *)
Theorem failed_object_keys_collide :
  (forall statement,
      statementKey statement = String.append (Schema statement) (String.append "." (Name statement))) /\
  (forall statement,
      offsetKey statement = String.append (OSchema statement) (String.append "." (OName statement))) /\
  (Schema Example.dotted1, Name Example.dotted1) <> (Schema Example.dotted2, Name Example.dotted2) /\
  statementKey Example.dotted1 = "a.b.c" /\ statementKey Example.dotted2 = "a.b.c" /\
  offsetKey Example.odotted1 = offsetKey Example.odotted2 /\
  (let σ := ExecuteStatements_run Example.Exec Example.NumConns Example.ValidateConnNum true
              [Example.dotted1; Example.dotted2] false [] [] false ∅ 0 (Example.serial 13) in
   Pool.finished σ = true /\ Pool.failures (Pool.history σ) = 2%nat /\
   Pool.numErrors σ = 2 /\
   Pool.errorTablesMetadata σ = {["a.b.c"]} /\ size (Pool.errorTablesMetadata σ) = 1%nat) /\
  (exists σ,
      WriteStatements_run Example.NumConns true Example.opens
        [Example.odotted1; Example.odotted2] true "postdata.sql" [] false ∅ 0
        (Example.alternate 7) = inr σ /\
      Pool.finished σ = true /\ Pool.failures (Pool.history σ) = 2%nat /\
      Pool.numErrors σ = 2 /\
      Pool.errorTablesMetadata σ = {["a.b.c"]} /\ size (Pool.errorTablesMetadata σ) = 1%nat).
Proof.
  split; [done|]. split; [done|]. split; [by intros [= ]|].
  split; [done|]. split; [done|]. split; [done|]. split.
  - cbv zeta. repeat split; by vm_compute.
  - eexists. split; [reflexivity|]. repeat split; by vm_compute.
Qed.

(** ** Worked examples *)

Lemma serial_no_Signal n : Pool.Signal ∉ Example.serial n.
Proof. by intros H%list_elem_of_In%repeat_spec. Qed.

Lemma alternate_no_Signal n : Pool.Signal ∉ Example.alternate n.
Proof.
  unfold Example.alternate. induction n as [|n IH]; simpl.
  - apply not_elem_of_nil.
  - intros [[= ]|[[= ]|H]%elem_of_cons]%elem_of_cons. by apply IH.
Qed.

(** The scenario of the specification: two indexes on [t1], one on [t2]
    and a comment. *)
Lemma BatchPostdataStatements_index_first_witness :
  List.filter (isIndexOn "public.t1")
    [Example.index1; Example.index1'; Example.index2; Example.comment1]
  = Example.index1 :: [Example.index1'] /\
  let '(first, second, third) :=
    BatchPostdataStatements
      [Example.index1; Example.index1'; Example.index2; Example.comment1] false in
  List.filter (isIndexOn "public.t1") first = [Example.index1] /\
  List.filter (isIndexOn "public.t1") second = [Example.index1'] /\
  List.filter (isIndexOn "public.t1") third = [].
Proof.
  split; [reflexivity|].
  apply (BatchPostdataStatements_index_first
           [Example.index1; Example.index1'; Example.index2; Example.comment1]
           "public.t1" Example.index1 [Example.index1']).
  reflexivity.
Defined.

(** Three statements, the second of which fails, errors counted: the call
    returns 1. *)
Lemma ExecuteStatements_serial_witness :
  Pool.finished Example.counted_run = true /\
  Pool.attempted (Pool.history Example.counted_run)
    `prefix_of` [Example.good; Example.bad; Example.good] /\
  ExecuteStatements Example.Exec Example.NumConns Example.ValidateConnNum true
    [Example.good; Example.bad; Example.good] false [] [] false ∅ 0 (Example.serial 20)
  = Some (Return 1).
Proof.
  unfold Example.counted_run.
  assert (Pool.finished
            (ExecuteStatements_run Example.Exec Example.NumConns Example.ValidateConnNum true
               [Example.good; Example.bad; Example.good] false [] [] false ∅ 0%nat
               (Example.serial 20)) = true) as Hfin by (vm_compute; reflexivity).
  split; [exact Hfin|].
  pose proof (ExecuteStatements_serial Example.Exec Example.NumConns Example.ValidateConnNum true
                [Example.good; Example.bad; Example.good] [] [] false ∅ 0%nat (Example.serial 20)
                Hfin) as H.
  split; [exact (proj1 H)|].
  pose proof (proj1 (proj2 (proj2 (proj2 H)))) as Hout.
  rewrite Hout. by vm_compute.
Defined.


(** C5, as the specification states it, fails: the one statement fails, its error
    is latched as the fatal error, and [Increment] is called all the same;
    the bar is not at the number of attempts that succeeded or were
    counted. *)
Lemma Increment_on_fatal_counterexample :
  Pool.finished Example.fatal_run = true /\
  Pool.history Example.fatal_run =
    [(0%nat, Pool.Checked Example.bad false);
     (0%nat, Pool.Attempted Example.bad (Some "syntax error"));
     (0%nat, Pool.Latched "syntax error");
     (0%nat, Pool.Incremented)] /\
  Pool.fatalErr Example.fatal_run = Some "syntax error" /\
  Pool.recovered_or_successful (Pool.history Example.fatal_run) = 0%nat /\
  Pool.progressBar Example.fatal_run = 1%nat /\
  Pool.progressBar Example.fatal_run
  <> (0 + Pool.recovered_or_successful (Pool.history Example.fatal_run))%nat.
Proof. repeat split; by vm_compute. Qed.

Lemma Increment_after_every_attempt_witness :
  Pool.finished Example.fatal_run = true /\
  Pool.progressBar Example.fatal_run
  = (0 + length (Pool.attempts (Pool.history Example.fatal_run)))%nat.
Proof.
  split; [reflexivity|].
  apply (Increment_after_every_attempt Example.World Example.Exec Example.NumConns
           Example.ValidateConnNum false [Example.bad] false [] [] false ∅ 0%nat
           (Example.serial 6)).
  reflexivity.
Defined.


(** The statements at the offsets 0, 50 and 120, written by two workers:
    the file holds each text at its offset. *)
Lemma WriteStatements_offsets_witness :
  Example.opens "postdata.sql" = None /\
  nonoverlapping [Example.w0; Example.w50; Example.w120] /\
  Forall (fun t => 0 <= Offset t) [Example.w0; Example.w50; Example.w120] /\
  Pool.finished Example.written = true /\
  (forall t, t ∈ [Example.w0; Example.w50; Example.w120] ->
     ReadAt (Pool.sys Example.written) (Offset t) (length (text t)) = text t) /\
  WriteStatements Example.NumConns true Example.opens
    [Example.w0; Example.w50; Example.w120] true "postdata.sql" [] false ∅ 0
    (Example.alternate 12) = Some (Return 0).
Proof.
  assert (nonoverlapping [Example.w0; Example.w50; Example.w120]) as Hno.
  { simpl. repeat constructor; unfold disjoint; vm_compute; intuition discriminate. }
  assert (Forall (fun t => 0 <= Offset t) [Example.w0; Example.w50; Example.w120]) as Hoff.
  { repeat constructor; by vm_compute. }
  split; [reflexivity|]. split; [exact Hno|]. split; [exact Hoff|].
  split; [reflexivity|].
  destruct (WriteStatements_offsets Example.NumConns true Example.opens
              [Example.w0; Example.w50; Example.w120] true "postdata.sql" [] ∅ 0%nat
              (Example.alternate 12) Example.written eq_refl Hno Hoff
              (alternate_no_Signal 12) (or_intror eq_refl) eq_refl eq_refl)
    as (_ & _ & _ & Hread & _ & Hout).
  split; [exact Hread | exact Hout].
Defined.

(* ================================================================= *)
(** * Further properties *)

(** ** Batching *)

Section BatchMore.
Import Batch.

(** What the loop keeps of the first batch without [skipIndex]: index
    records only, of reference objects that differ, all of them marked in
    [indexMap]. *)
Lemma loop_first_distinct statements : forall st,
  (Forall (fun s => isIndex s = true) (firstBatch st) /\
   NoDup (ReferenceObject <$> firstBatch st) /\
   forall s, s ∈ firstBatch st -> present (ReferenceObject s) (indexMap st) = true) ->
  let st' := loop false st statements in
  Forall (fun s => isIndex s = true) (firstBatch st') /\
  NoDup (ReferenceObject <$> firstBatch st').
Proof.
  induction statements as [|x l IH]; intros st (Hidx & Hnodup & Hmark); cbv zeta.
  - done.
  - rewrite loop_cons. apply IH. unfold body, toFirstBatch. fold (isIndex x).
    destruct (isIndex x) eqn:Hx; simpl.
    + destruct (present (ReferenceObject x) (indexMap st)) eqn:Hpr; simpl.
      * fold (isMetadata x). rewrite (isIndex_not_metadata _ Hx). done.
      * split; [apply Forall_app; split; [done | by constructor]|]. split.
        -- rewrite fmap_app. apply NoDup_app. split; [done|]. split; [|apply NoDup_singleton].
           intros r [s [-> Hs]]%list_elem_of_fmap [= Heq]%list_elem_of_singleton.
           specialize (Hmark s Hs). rewrite Heq in Hmark. congruence.
        -- intros s [Hs | ->%list_elem_of_singleton]%elem_of_app.
           ++ destruct (decide (ReferenceObject x = ReferenceObject s)) as [->|Hne].
              ** apply present_insert_eq.
              ** rewrite present_insert_ne by done. by apply Hmark.
           ++ apply present_insert_eq.
    + destruct (Contains _ _); done.
Qed.

Lemma loop_third statements : forall st,
  thirdBatch (loop false st statements) = thirdBatch st ++ List.filter isMetadata statements.
Proof.
  induction statements as [|x l IH]; intros st.
  - simpl. by rewrite app_nil_r.
  - rewrite loop_cons, IH, filter_head. unfold body, toFirstBatch. fold (isIndex x) (isMetadata x).
    destruct (isIndex x) eqn:Hx; simpl.
    + rewrite (isIndex_not_metadata _ Hx).
      by destruct (present (ReferenceObject x) (indexMap st)).
    + destruct (isMetadata x); simpl; [by rewrite <- app_assoc | done].
Qed.

Lemma loop_skipIndex_rest statements : forall st,
  let st' := loop true st statements in
  secondBatch st' = secondBatch st ++
    List.filter (fun s => negb (isIndexOrIndexMetadata s) && negb (isMetadata s)) statements /\
  thirdBatch st' = thirdBatch st ++
    List.filter (fun s => negb (isIndexOrIndexMetadata s) && isMetadata s) statements.
Proof.
  induction statements as [|x l IH]; intros st; cbv zeta.
  - simpl. by rewrite !app_nil_r.
  - rewrite loop_cons, !filter_head. destruct (IH (body true st x)) as [-> ->].
    unfold body, toFirstBatch. fold (isIndex x) (isIndexOrIndexMetadata x) (isMetadata x).
    destruct (isIndexOrIndexMetadata x); [done|].
    destruct (isMetadata x); simpl; by rewrite <- app_assoc.
Qed.
End BatchMore.

Lemma batches_skipIndex (statements : list StatementWithType) :
  BatchPostdataStatements statements true =
  (List.filter isIndexOrIndexMetadata statements,
   List.filter (fun s => negb (isIndexOrIndexMetadata s) && negb (isMetadata s)) statements,
   List.filter (fun s => negb (isIndexOrIndexMetadata s) && isMetadata s) statements).
Proof.
  unfold BatchPostdataStatements.
  destruct (loop_skipIndex statements Batch.init) as (-> & _).
  by destruct (loop_skipIndex_rest statements Batch.init) as (-> & ->).
Qed.

(** X1. Without [skipIndex] the first batch holds index records only, and
    no two of them are of the same reference object: one index for each
    table that has one. *)
Theorem BatchPostdataStatements_first_distinct (statements : list StatementWithType) :
  let '(first, second, third) := BatchPostdataStatements statements false in
  Forall (fun s => isIndex s = true) first /\
  NoDup (ReferenceObject <$> first).
Proof.
  unfold BatchPostdataStatements.
  apply (loop_first_distinct statements Batch.init). simpl.
  split; [constructor|]. split; [constructor|]. intros s Hs. by apply elem_of_nil in Hs.
Qed.

(** X2. Without [skipIndex] the third batch is exactly the records of the
    input whose type contains [" METADATA"], those of type
    ["INDEX METADATA"] among them, in the order of the input. *)
Theorem BatchPostdataStatements_third (statements : list StatementWithType) :
  let '(first, second, third) := BatchPostdataStatements statements false in
  third = List.filter isMetadata statements.
Proof. unfold BatchPostdataStatements. by rewrite loop_third. Qed.

(** X3. With [skipIndex] each batch is a filter of the input: the records
    that are neither ["INDEX"] nor ["INDEX METADATA"] go to the third batch
    when their type contains [" METADATA"] and to the second otherwise. *)
Theorem BatchPostdataStatements_skipIndex_filters (statements : list StatementWithType) :
  BatchPostdataStatements statements true =
  (List.filter isIndexOrIndexMetadata statements,
   List.filter (fun s => negb (isIndexOrIndexMetadata s) && negb (isMetadata s)) statements,
   List.filter (fun s => negb (isIndexOrIndexMetadata s) && isMetadata s) statements).
Proof. apply batches_skipIndex. Qed.

(** X4. With [skipIndex] the batches of two sequences put end to end are
    the batches of each, put end to end: the batching of a record does not
    depend on the records before it. *)
Theorem BatchPostdataStatements_skipIndex_app (l1 l2 : list StatementWithType) :
  let '(first1, second1, third1) := BatchPostdataStatements l1 true in
  let '(first2, second2, third2) := BatchPostdataStatements l2 true in
  BatchPostdataStatements (l1 ++ l2) true
  = (first1 ++ first2, second1 ++ second2, third1 ++ third2).
Proof.
  rewrite !batches_skipIndex. by rewrite !List.filter_app.
Qed.

(** ** The execution engine, in both modes *)

Lemma unrecorded_finished {Task Arg : Type} (l : list (Arg * Pool.pc Task)) :
  forallb Pool.isReturned l = true -> flat_map Pool.unrecorded l = [].
Proof.
  induction l as [|[arg p] l IH]; simpl; [done|].
  intros [Hp Hl]%andb_true_iff. destruct p; try done. by apply IH.
Qed.

Section ExecuteMore.
Context {World : Type}.
Variable connectionPool_Exec : World -> string -> Z -> World * option error.
Variable connectionPool_NumConns : Z.
Variable connectionPool_ValidateConnNum : list Z -> Z.
Variable onErrorContinue : bool.

Abbreviation erun :=
  (ExecuteStatements_run connectionPool_Exec connectionPool_NumConns
                         connectionPool_ValidateConnNum onErrorContinue).
Abbreviation ereturn :=
  (ExecuteStatements connectionPool_Exec connectionPool_NumConns
                     connectionPool_ValidateConnNum onErrorContinue).
Abbreviation conns :=
  (connections connectionPool_NumConns connectionPool_ValidateConnNum).

Lemma connections_nonempty executeInParallel whichConn :
  executeInParallel = false \/ 0 < connectionPool_NumConns ->
  conns executeInParallel whichConn <> [].
Proof.
  intros H Hnil. apply (f_equal length) in Hnil. unfold connections in Hnil.
  destruct executeInParallel; simpl in Hnil; [|done].
  rewrite length_map, length_seqZ in Hnil. lia.
Qed.

Lemma workers_nonempty executeInParallel whichConn statements world terminated tables bar
    schedule :
  executeInParallel = false \/ 0 < connectionPool_NumConns ->
  Pool.workers (erun statements executeInParallel whichConn world terminated tables bar schedule)
  <> [].
Proof.
  intros H Hnil. apply (f_equal length) in Hnil. unfold ExecuteStatements_run in Hnil.
  rewrite length_workers_run in Hnil. simpl in Hnil. rewrite length_fmap in Hnil.
  apply (connections_nonempty executeInParallel whichConn H).
  by destruct (conns executeInParallel whichConn).
Qed.

(** X5. Whatever the mode and the schedule, no statement is lost and none
    is attempted twice: the statements attempted, those put aside by
    workers that had to stop, those in the hands of workers and those left
    in the channel are, together, the input. *)
Theorem ExecuteStatements_conserves
    (statements : list StatementWithType) (executeInParallel : bool) (whichConn : list Z)
    (world : World) (terminated : bool) (tables : gset string) (bar : nat)
    (schedule : list Pool.action) :
  let σ := erun statements executeInParallel whichConn world terminated tables bar schedule in
  let h := Pool.history σ in
  Pool.attempted h ++ Pool.dropped h ++ Pool.holding (Pool.workers σ) ++ Pool.tasks σ
  ≡ₚ statements /\
  Pool.attempted h ⊆+ statements.
Proof.
  cbv zeta. unfold ExecuteStatements_run.
  pose proof (conserved_run (Exec connectionPool_Exec) statementKey onErrorContinue
                executeInParallel statements world terminated 0 tables bar
                (conns executeInParallel whichConn) schedule) as Hcons.
  unfold Pool.conserved in Hcons. split; [done|].
  etrans; [|by apply Permutation_submseteq]. by apply submseteq_inserts_r.
Qed.

(** X6. In either mode, when the pool has a worker and nothing stops it
    (no termination, and errors counted or none met), a complete run
    attempts every statement exactly once, returns the number of failed
    attempts (as an [int32]), and has called [Increment] once for each
    statement. *)
Theorem ExecuteStatements_drains_once
    (statements : list StatementWithType) (executeInParallel : bool) (whichConn : list Z)
    (world : World) (tables : gset string) (bar : nat) (schedule : list Pool.action) :
  let σ := erun statements executeInParallel whichConn world false tables bar schedule in
  let h := Pool.history σ in
  executeInParallel = false \/ 0 < connectionPool_NumConns ->
  Pool.Signal ∉ schedule ->
  onErrorContinue = true \/ Pool.failures h = 0%nat ->
  Pool.finished σ = true ->
  Pool.attempted h ≡ₚ statements /\
  ereturn statements executeInParallel whichConn world false tables bar schedule
  = Some (Return (wrap32 (Z.of_nat (Pool.failures h)))) /\
  Pool.progressBar σ = (bar + length statements)%nat.
Proof.
  cbv zeta. intros Hworker Hsig Hok Hfin.
  pose proof (workers_nonempty executeInParallel whichConn statements world false tables bar
                schedule Hworker) as Hne.
  unfold ExecuteStatements, ExecuteStatements_run in *.
  set (σ := Pool.run _ _ _ _ schedule _) in *.
  pose proof (count_inv_run (Exec connectionPool_Exec) statementKey onErrorContinue
                executeInParallel bar 0 statements world false tables
                (conns executeInParallel whichConn) schedule ltac:(lia))
    as (Hbar & Hatt & Hnum & Hfail & Hlat & Hcnt & Hfatal & _).
  fold σ in Hbar, Hatt, Hnum, Hfail, Hlat, Hcnt, Hfatal.
  rewrite (sum_list_with_finished Pool.pending) in Hatt by done.
  rewrite (sum_list_with_finished Pool.unhandled) in Hfail by done.
  assert (Pool.latched (Pool.history σ) = 0%nat) as Hl by (destruct Hok; [auto | lia]).
  assert (Pool.attempted (Pool.history σ) ≡ₚ statements) as Hperm.
  { apply attempted_all; try done.
    - apply conserved_run.
    - by apply unstopped_run. }
  split; [done|]. split.
  - unfold Pool.outcome_of, Pool.result. rewrite Hfin, Hfatal, Hnum by done.
    do 3 f_equal. lia.
  - apply Permutation_length in Hperm. unfold Pool.attempted in Hperm.
    rewrite length_fmap in Hperm. lia.
Qed.

(** X7. In parallel mode with no connection in the pool no worker is
    started: nothing is attempted, the statements stay in the channel, and
    the call returns 0 whatever the schedule. *)
Theorem ExecuteStatements_no_connection
    (statements : list StatementWithType) (whichConn : list Z)
    (world : World) (terminated : bool) (tables : gset string) (bar : nat)
    (schedule : list Pool.action) :
  let σ := erun statements true whichConn world terminated tables bar schedule in
  connectionPool_NumConns <= 0 ->
  Pool.history σ = [] /\ Pool.tasks σ = statements /\ Pool.sys σ = world /\
  Pool.progressBar σ = bar /\
  ereturn statements true whichConn world terminated tables bar schedule = Some (Return 0).
Proof.
  cbv zeta. intros Hn. unfold ExecuteStatements, ExecuteStatements_run, connections. simpl.
  rewrite seqZ_nil by done. simpl.
  destruct (run_no_workers (Exec connectionPool_Exec) statementKey onErrorContinue true schedule
              (Pool.start statements world terminated 0 tables bar []) eq_refl)
    as (Hw & Hh & Hnum & Hfatal & Hsys & Htasks & Hbar & _).
  repeat split; try done.
  unfold Pool.outcome_of, Pool.finished, Pool.result. by rewrite Hw, Hfatal, Hnum.
Qed.



(** X10. [fatalErr] is written without a test: the error that ends the
    call is the one that was latched last, so that with several workers a
    later failure replaces an earlier one. *)
Theorem ExecuteStatements_last_error
    (statements : list StatementWithType) (executeInParallel : bool) (whichConn : list Z)
    (world : World) (terminated : bool) (tables : gset string) (bar : nat)
    (schedule : list Pool.action) :
  let σ := erun statements executeInParallel whichConn world terminated tables bar schedule in
  Pool.fatalErr σ = last (Pool.latched_errors (Pool.history σ)) /\
  (Pool.finished σ = true ->
   ereturn statements executeInParallel whichConn world terminated tables bar schedule
   = Some (match last (Pool.latched_errors (Pool.history σ)) with
           | Some e => Fatal e
           | None => Return (Pool.numErrors σ)
           end)).
Proof.
  cbv zeta. unfold ExecuteStatements, ExecuteStatements_run.
  set (σ := Pool.run _ _ _ _ schedule _).
  pose proof (fatalErr_last_run (Exec connectionPool_Exec) statementKey onErrorContinue
                executeInParallel statements world terminated 0 tables bar
                (conns executeInParallel whichConn) schedule) as Hlast. fold σ in Hlast.
  split; [done|]. intros Hfin. unfold Pool.outcome_of, Pool.result. by rewrite Hfin, Hlast.
Qed.

(** X11. [errorTablesMetadata] only grows, by the keys the history shows
    inserted.  When errors are counted, a complete run leaves in it, beside
    what it held, exactly the keys of the statements whose execution
    failed; when errors are fatal it is left as it was. *)
Theorem ExecuteStatements_failed_objects
    (statements : list StatementWithType) (executeInParallel : bool) (whichConn : list Z)
    (world : World) (terminated : bool) (tables : gset string) (bar : nat)
    (schedule : list Pool.action) :
  let σ := erun statements executeInParallel whichConn world terminated tables bar schedule in
  let h := Pool.history σ in
  Pool.errorTablesMetadata σ = list_to_set (Pool.inserted h) ∪ tables /\
  if onErrorContinue
  then Pool.finished σ = true ->
       Pool.errorTablesMetadata σ = list_to_set (statementKey <$> Pool.failed h) ∪ tables
  else Pool.errorTablesMetadata σ = tables.
Proof.
  cbv zeta. unfold ExecuteStatements_run.
  set (σ := Pool.run _ _ _ _ schedule _).
  pose proof (tables_inv_run (Exec connectionPool_Exec) statementKey onErrorContinue
                executeInParallel statements world terminated 0 tables bar
                (conns executeInParallel whichConn) schedule) as Hset.
  fold σ in Hset. unfold Pool.tables_inv in Hset. split; [done|].
  destruct onErrorContinue eqn:Hc.
  - intros Hfin.
    pose proof (recorded_run (Exec connectionPool_Exec) statementKey true
                  executeInParallel statements world terminated 0 tables bar
                  (conns executeInParallel whichConn) schedule eq_refl) as Hrec.
    fold σ in Hrec. unfold Pool.recorded in Hrec.
    assert (flat_map Pool.unrecorded (Pool.workers σ) = []) as Hnone
      by (by apply unrecorded_finished).
    rewrite Hnone in Hrec. simpl in Hrec. rewrite app_nil_r in Hrec.
    by rewrite Hset, Hrec.
  - destruct (unrecording_run (Exec connectionPool_Exec) statementKey false
                executeInParallel statements world terminated 0 tables bar
                (conns executeInParallel whichConn) schedule eq_refl) as [Hnone _].
    fold σ in Hnone. rewrite Hset, Hnone. simpl. by rewrite union_empty_l_L.
Qed.

(** X12. [ExecuteStatementsAndCreateProgressBar]: the bar never receives
    more increments than the total it was created with, the number of
    statements. *)
Theorem ExecuteStatementsAndCreateProgressBar_bounded
    (statements : list StatementWithType) (executeInParallel : bool) (whichConn : list Z)
    (world : World) (terminated : bool) (tables : gset string)
    (schedule : list Pool.action) :
  let '(total, σ) :=
    ExecuteStatementsAndCreateProgressBar_run connectionPool_Exec connectionPool_NumConns
      connectionPool_ValidateConnNum onErrorContinue statements executeInParallel whichConn
      world terminated tables schedule in
  total = length statements /\
  (Pool.progressBar σ <= length (Pool.attempts (Pool.history σ)))%nat /\
  (Pool.progressBar σ <= total)%nat.
Proof.
  unfold ExecuteStatementsAndCreateProgressBar_run, ExecuteStatements_run.
  set (σ := Pool.run _ _ _ _ schedule _).
  pose proof (count_inv_run (Exec connectionPool_Exec) statementKey onErrorContinue
                executeInParallel 0 0 statements world terminated tables
                (conns executeInParallel whichConn) schedule ltac:(lia))
    as (Hbar & Hatt & _). fold σ in Hbar, Hatt.
  pose proof (conserved_run (Exec connectionPool_Exec) statementKey onErrorContinue
                executeInParallel statements world terminated 0 tables 0%nat
                (conns executeInParallel whichConn) schedule) as Hcons.
  fold σ in Hcons. unfold Pool.conserved in Hcons.
  apply Permutation_length in Hcons. rewrite !length_app in Hcons.
  unfold Pool.attempted in Hcons. rewrite length_fmap in Hcons.
  split; [done|]. split; lia.
Qed.
End ExecuteMore.


(** ** The file writer in serial mode *)

(** X14. In serial mode the writer writes the statements in the order of
    the input: when the file is opened and nothing stops the one worker, a
    complete run has attempted exactly the input, in its order, and the
    file is what the writes make of it one after the other, so that of two
    statements that overlap the later one of the input prevails. *)
Theorem WriteStatements_serial_order
    (connectionPool_NumConns : Z) (onErrorContinue : bool)
    (os_OpenFile_error : string -> option error)
    (statements : list StatementWithOffset) (filename : string) (content : list Byte.byte)
    (tables : gset string) (bar : nat) (schedule : list Pool.action)
    (σ : Pool.state StatementWithOffset (list Byte.byte) File) :
  os_OpenFile_error filename = None ->
  Pool.Signal ∉ schedule ->
  WriteStatements_run connectionPool_NumConns onErrorContinue os_OpenFile_error
    statements false filename content false tables bar schedule = inr σ ->
  Pool.finished σ = true ->
  onErrorContinue = true \/ Pool.failures (Pool.history σ) = 0%nat ->
  Pool.attempted (Pool.history σ) = statements /\
  Pool.replay Write openFile content statements = (Pool.attempts (Pool.history σ), Pool.sys σ).
Proof.
  intros Hopen Hsig Hrun Hfin Hok.
  unfold WriteStatements_run, os_OpenFile, writers in Hrun. rewrite Hopen in Hrun.
  simpl in Hrun. injection Hrun as Hσ.
  destruct (in_order_run Write offsetKey onErrorContinue false statements content false 0
              tables bar openFile schedule) as (arg & p & Hwk & Horder & _).
  rewrite Hσ in Hwk, Horder.
  assert (p = Pool.Returned) as ->.
  { apply (proj1 (finished_lookup σ) Hfin 0%nat arg). by rewrite Hwk. }
  pose proof (count_inv_run Write offsetKey onErrorContinue false bar 0 statements content
                false tables [openFile] schedule ltac:(lia))
    as (_ & _ & _ & Hfail & Hlat & _). rewrite Hσ in Hfail, Hlat.
  assert (Pool.latched (Pool.history σ) = 0%nat) as Hl by (destruct Hok; [auto | lia]).
  destruct (unstopped_run Write offsetKey onErrorContinue false statements content 0 tables
              bar [openFile] schedule Hsig ltac:(by rewrite Hσ)) as (_ & _ & Hnone & Hret).
  rewrite Hσ in Hnone, Hret.
  rewrite Hnone, (Hret 0%nat arg) in Horder by (by rewrite Hwk).
  simpl in Horder. rewrite !app_nil_r in Horder.
  split; [done|].
  destruct (replayed_run Write offsetKey onErrorContinue false statements content false 0
              tables bar openFile 1 schedule) as [_ Hrep].
  simpl in Hrep. rewrite Hσ in Hrep. by rewrite <- Horder at 1.
Qed.

(** X15. Whatever the mode and the schedule, whether the file was opened
    or not, the writer changes the file through its writes only: the
    results in the history and the content of the file are those of the
    attempted statements written one after the other, in the order of the
    history, on the handle that [os.OpenFile] returned. *)
Theorem WriteStatements_file_is_replay
    (connectionPool_NumConns : Z) (onErrorContinue : bool)
    (os_OpenFile_error : string -> option error)
    (statements : list StatementWithOffset) (executeInParallel : bool)
    (filename : string) (content : list Byte.byte) (terminated : bool)
    (tables : gset string) (bar : nat) (schedule : list Pool.action) :
  match WriteStatements_run connectionPool_NumConns onErrorContinue os_OpenFile_error
          statements executeInParallel filename content terminated tables bar schedule with
  | inl _ => True
  | inr σ =>
      Pool.replay Write (os_OpenFile os_OpenFile_error filename).1 content
                  (Pool.attempted (Pool.history σ))
      = (Pool.attempts (Pool.history σ), Pool.sys σ)
  end.
Proof.
  unfold WriteStatements_run, os_OpenFile.
  destruct (os_OpenFile_error filename) as [e|]; simpl.
  - destruct onErrorContinue; [|done].
    destruct (writers_replicate connectionPool_NumConns executeInParallel nilFile)
      as (n & -> & _).
    apply (replayed_run Write offsetKey true executeInParallel statements content terminated
             (0 + 1) tables bar nilFile n schedule).
  - destruct (writers_replicate connectionPool_NumConns executeInParallel openFile)
      as (n & -> & _).
    apply (replayed_run Write offsetKey onErrorContinue executeInParallel statements content
             terminated 0 tables bar openFile n schedule).
Qed.


(** ** Further worked examples *)

(** Two connections, three statements, the second of which fails, errors
    counted: every statement is attempted once and the call returns 1. *)
Lemma ExecuteStatements_drains_once_witness :
  0 < Example.NumConns /\
  (Pool.Signal ∉ Example.alternate 15) /\
  (Pool.attempted
     (Pool.history
        (ExecuteStatements_run Example.Exec Example.NumConns Example.ValidateConnNum true
           [Example.good; Example.bad; Example.good] true [] [] false ∅ 0%nat
           (Example.alternate 15)))
   ≡ₚ [Example.good; Example.bad; Example.good]) /\
  ExecuteStatements Example.Exec Example.NumConns Example.ValidateConnNum true
    [Example.good; Example.bad; Example.good] true [] [] false ∅ 0%nat (Example.alternate 15)
  = Some (Return 1).
Proof.
  assert (Pool.finished
            (ExecuteStatements_run Example.Exec Example.NumConns Example.ValidateConnNum true
               [Example.good; Example.bad; Example.good] true [] [] false ∅ 0%nat
               (Example.alternate 15)) = true) as Hfin by (vm_compute; reflexivity).
  pose proof (ExecuteStatements_drains_once Example.Exec Example.NumConns
                Example.ValidateConnNum true [Example.good; Example.bad; Example.good]
                true [] [] ∅ 0%nat (Example.alternate 15)
                (or_intror eq_refl) (alternate_no_Signal 15) (or_introl eq_refl) Hfin) as H.
  split; [reflexivity|]. split; [apply alternate_no_Signal|].
  split; [exact (proj1 H)|].
  rewrite (proj1 (proj2 H)). by vm_compute.
Defined.

(** A pool of no connection. *)
Lemma ExecuteStatements_no_connection_witness :
  0 <= 0 /\
  ExecuteStatements Example.Exec 0 Example.ValidateConnNum true
    [Example.good; Example.bad] true [] [] false ∅ 0%nat (Example.alternate 3)
  = Some (Return 0).
Proof.
  split; [lia|].
  apply (ExecuteStatements_no_connection Example.Exec 0 Example.ValidateConnNum true
           [Example.good; Example.bad] [] [] false ∅ 0%nat (Example.alternate 3)).
  lia.
Defined.


(** Two statements that overlap, written in serial mode: the second
    prevails where they overlap. *)
Lemma WriteStatements_serial_order_witness :
  Example.opens "postdata.sql" = None /\
  (Pool.Signal ∉ Example.serial 10) /\
  exists σ,
    WriteStatements_run Example.NumConns true Example.opens
      [Example.w0; Example.over] false "postdata.sql" [] false ∅ 0%nat (Example.serial 10)
    = inr σ /\
    Pool.finished σ = true /\
    Pool.attempted (Pool.history σ) = [Example.w0; Example.over] /\
    ReadAt (Pool.sys σ) 0 14 = list_byte_of_string "CREATE TABDROP".
Proof.
  split; [reflexivity|]. split; [apply serial_no_Signal|].
  eexists. split; [reflexivity|].
  match goal with |- Pool.finished ?s = true /\ _ =>
    assert (Pool.finished s = true) as Hfin by (vm_compute; reflexivity) end.
  split; [exact Hfin|].
  pose proof (WriteStatements_serial_order Example.NumConns true Example.opens
                [Example.w0; Example.over] "postdata.sql" [] ∅ 0%nat (Example.serial 10) _
                eq_refl (serial_no_Signal 10) eq_refl Hfin (or_introl eq_refl)) as [Hatt Hrep].
  split; [exact Hatt|]. by vm_compute.
Defined.
